(** * Override resolution of [ecommerce/decorators.py]

    A shallow embedding of the [overridable] decorator: the wrapper it
    returns looks, at call time, through the classes of the instance's
    method resolution order for same-named functions marked [overrides],
    picks the one of highest [priority], refuses a tie between the two
    best, falls back to the decorated function, and memoises the choice in
    the decorated function's [handler_cache]. *)

From stdpp Require Import gmap strings list sorting functions.

Local Open Scope Z_scope.

(** ** Data model *)

(** A Python function object, reduced to what the wrapper reads from it;
    the attributes found on classes under an operation's name are taken to
    be function objects.
    [fn_id] stands for the address [id(f)]: two function objects are the same
    object exactly when their records are equal, and [fn_id] separates
    functions that agree on every attribute.  [overrides] says whether the
    attribute of that name is present ([hasattr(f, 'overrides')]); [priority]
    is the attribute of that name when it is set. *)
Record function := Function {
  fn_id : positive;
  __name__ : string;
  __str__ : string;
  overrides : bool;
  priority : option Z;
}.

#[global] Instance function_eq_dec : EqDecision function.
Proof. solve_decision. Defined.

(** A class as the wrapper sees it: its identity, which feeds the hash of the
    cache key, and the attributes [getattr(cls, ·)] finds on it, the inherited
    ones included. *)
Record pyclass := PyClass {
  cls_id : positive;
  cls_attrs : gmap string function;
}.

Definition getattr (cls : pyclass) (name : string) : option function :=
  cls_attrs cls !! name.

(** An instance: [class_mro] is [instance.__class__.__mro__]. *)
Record object := Object {
  obj_id : positive;
  class_mro : list pyclass;
}.

(** The members of the tuple [mro + (func.__name__,)]. *)
Inductive tuple_item :=
  | TClass (id : positive)
  | TStr (s : string).

#[global] Instance tuple_item_eq_dec : EqDecision tuple_item.
Proof. solve_decision. Defined.

#[global] Instance tuple_item_countable : Countable tuple_item.
Proof.
  refine (inj_countable'
            (λ it, match it with TClass id => inl id | TStr s => inr s end)
            (λ x, match x with inl id => TClass id | inr s => TStr s end) _).
  by intros [].
Defined.

(** The only exception the wrapper raises itself. *)
Inductive exn :=
  | AttributeError (msg : string).

#[global] Instance exn_eq_dec : EqDecision exn.
Proof. solve_decision. Defined.

(** [func.handler_cache], for every function object: a dict from hashes to
    handlers.  [decorator] gives each decorated function a dict of its own. *)
Abbreviation store := (function → gmap Z function).

(** [getattr(x, 'priority', 1)] *)
Definition getattr_priority (x : function) : Z := default 1 (priority x).

(** ** [sorted(iterable, key=..., reverse=...)]

    Python's sort is stable, also with [reverse=True]; a stable sort has one
    possible result, which this insertion sort computes. *)
Section sorted.
Context {A : Type} (key : A → Z) (reverse : bool).

(** Whether [x], met before [y] in the input, is placed after [y]. *)
Definition goes_after (x y : A) : bool :=
  if reverse then key x <? key y else key y <? key x.

Fixpoint insort (x : A) (l : list A) : list A :=
  match l with
  | [] => [x]
  | y :: l' => if goes_after x y then y :: insort x l' else x :: y :: l'
  end.

Definition sorted (l : list A) : list A := foldr insort [] l.

(** The order of a result of [reverse=True]: no element is followed by one
    of a larger key. *)
Definition descending (x y : A) : Prop := key y ≤ key x.
End sorted.

(** ** The decorator *)
Section overridable.
(** [hash] of a tuple of classes and a string. *)
Variable hash : list tuple_item → Z.

(** A set comprehension followed by an iteration over the set: from the
    objects in the order they are added, the members in the order the set
    yields them.  Python fixes no order; the set holds each object once. *)
Variable py_set : list function → list function.

(** Values passed to and returned by handlers, and the call of a function
    object on an instance, positional and keyword arguments. *)
Variable value : Type.
Variable call :
  function → object → list value → list (string * value) → store →
  (exn + value) * store.

(** Lines 18-19: [setattr(func, 'handler_cache', dict())]. The
    [overridable] marker set next to it is read nowhere. *)
Definition decorator (func : function) (st : store) : store :=
  <[func := ∅]> st.

(** Line 27. *)
Definition cache_key (func : function) (mro : list pyclass) : Z :=
  hash ((TClass ∘ cls_id <$> mro) ++ [TStr (__name__ func)]).

(** Line 32: [getattr(cls, name)] of the classes that have the attribute. *)
Definition candidates (func : function) (mro : list pyclass) : list function :=
  py_set (omap (λ cls, getattr cls (__name__ func)) mro).

(** Lines 35-36. *)
Definition handlers (func : function) (mro : list pyclass) : list function :=
  sorted getattr_priority true
    (py_set (filter (λ f, overrides f = true) (candidates func mro))).

(** Lines 38-46: the exception raised when the two first handlers have
    the same priority. *)
Definition ambiguity_message (first_handler second_handler : function) : string :=
  "Cannot find a more specific overriding method: " +:+
  __str__ first_handler +:+ " or " +:+ __str__ second_handler +:+
  ". Use the 'priority' param.".

Definition ambiguous (hs : list function) : option exn :=
  match hs with
  | first_handler :: second_handler :: _ =>
      if decide (getattr_priority first_handler = getattr_priority second_handler)
      then Some (AttributeError (ambiguity_message first_handler second_handler))
      else None
  | _ => None
  end.

(** Lines 31-48, the scan: the handler found in the hierarchy, or the
    exception. *)
Definition scan (func : function) (mro : list pyclass) : exn + function :=
  let hs := handlers func mro in
  match ambiguous hs with
  | Some e => inl e
  | None => inr (default func (head hs))
  end.

(** What one resolution does: the handler or the exception, the store it
    leaves, and the classes whose attributes it looked up. *)
Record resolution := Resolution {
  outcome : exn + function;
  store_after : store;
  scanned : list positive;
}.

(** Lines 24-50 of [wrapper]: everything before the handler is called.
    What the cache holds is a function object, which is never falsy, so
    [if not handler] is the test that the key is absent. *)
Definition resolve (func : function) (mro : list pyclass) (st : store) : resolution :=
  let cache_key := cache_key func mro in
  match st func !! cache_key with
  | Some handler => Resolution (inr handler) st []
  | None =>
      match scan func mro with
      | inl e => Resolution (inl e) st (cls_id <$> mro)
      | inr handler =>
          Resolution (inr handler)
            (<[func := <[cache_key := handler]> (st func)]> st)
            (cls_id <$> mro)
      end
  end.

(** Lines 22-53. *)
Definition wrapper (func : function) (instance : object)
    (args : list value) (kwargs : list (string * value)) (st : store) :
    (exn + value) * store :=
  let r := resolve func (class_mro instance) st in
  match outcome r with
  | inr handler => call handler instance args kwargs (store_after r)
  | inl e => (inl e, store_after r)
  end.
End overridable.

(** [n] resolutions in a row on the same hierarchy: the store they leave. *)
Fixpoint resolve_times (hash : list tuple_item → Z)
    (py_set : list function → list function)
    (n : nat) (func : function) (mro : list pyclass) (st : store) : store :=
  match n with
  | O => st
  | S n' =>
      resolve_times hash py_set n' func mro
        (store_after (resolve hash py_set func mro st))
  end.

(** The store a program reaches by resolving, one after the other, the
    hierarchies [runs], each a list of class ids of the class table
    [table]. *)
Definition resolve_all (hash : list tuple_item → Z)
    (py_set : list function → list function)
    (func : function) (table : positive → pyclass)
    (runs : list (list positive)) (st : store) : store :=
  foldl (λ st ids, store_after (resolve hash py_set func (table <$> ids) st))
    st runs.

(** ** Vocabulary of the specification *)

(** [f] is an override candidate of the operation of [func] in the hierarchy
    [mro]: some class of the hierarchy exposes it under the operation's name
    and it is marked [overrides]. *)
Definition override_candidate (func : function) (mro : list pyclass)
    (f : function) : Prop :=
  ∃ cls, cls ∈ mro ∧ getattr cls (__name__ func) = Some f ∧ overrides f = true.

(** What the cache of [func] holds under the key of this hierarchy, if
    anything, is what a scan of this hierarchy finds: the entry is not a
    stale one. An empty cache, and a cache filled by resolutions of this
    hierarchy, are of this kind. *)
Definition cache_valid (hash : list tuple_item → Z)
    (py_set : list function → list function)
    (func : function) (mro : list pyclass) (st : store) : Prop :=
  ∀ h, st func !! cache_key hash func mro = Some h →
       scan py_set func mro = inr h.

(** The same for every hierarchy made of the classes of [table]. *)
Definition no_stale_entry (hash : list tuple_item → Z)
    (py_set : list function → list function)
    (func : function) (table : positive → pyclass) (st : store) : Prop :=
  ∀ ids, cache_valid hash py_set func (table <$> ids) st.

(** No class of the hierarchy exposes the operation at all. *)
Definition no_implementation (func : function) (mro : list pyclass) : Prop :=
  ∀ cls, cls ∈ mro → getattr cls (__name__ func) = None.

(** ** A concrete hierarchy

    [View(Base, A, B)]: [Base] declares the overridable operation, the mixins
    [A] and [B] each declare an override of it.  The method resolution order
    is [View, Base, A, B, object]; [View] inherits the operation from [Base],
    whose attribute is the wrapper made by the decorator. *)
Module Scenario.
Definition op : string := "get_serializer_context".

Definition base_func : function :=
  Function 1 op "<function Base.get_serializer_context at 0x1>" false None.

Definition base_wrapper : function :=
  Function 2 op "<function Base.get_serializer_context at 0x2>" false None.

Definition mixin_func (id : positive) (shown : string) (p : option Z) : function :=
  Function id op shown true p.

Definition mixin (id : positive) (shown : string) (p : option Z) : pyclass :=
  PyClass id {[ op := mixin_func id shown p ]}.

Definition a_func := mixin_func 3 "<function A.get_serializer_context at 0x3>".
Definition b_func := mixin_func 4 "<function B.get_serializer_context at 0x4>".
Definition c_func := mixin_func 5 "<function C.get_serializer_context at 0x5>".

Definition A := mixin 3 "<function A.get_serializer_context at 0x3>".
Definition B := mixin 4 "<function B.get_serializer_context at 0x4>".
Definition C := mixin 5 "<function C.get_serializer_context at 0x5>".

Definition object_cls : pyclass := PyClass 10 ∅.
Definition Base : pyclass := PyClass 11 {[ op := base_wrapper ]}.
Definition View : pyclass := PyClass 12 {[ op := base_wrapper ]}.

(** [View(Base, A, B)] *)
Definition view_mro (pa pb : option Z) : list pyclass :=
  [View; Base; A pa; B pb; object_cls].

(** [View(Base, A, B, C)] *)
Definition view3_mro (pa pb pc : option Z) : list pyclass :=
  [View; Base; A pa; B pb; C pc; object_cls].

(** [View(Base)] and [View(Base, A)] *)
Definition plain_mro : list pyclass := [View; Base; object_cls].
Definition view1_mro (pa : option Z) : list pyclass :=
  [View; Base; A pa; object_cls].

(** A class that does not have the operation at all. *)
Definition stranger_mro : list pyclass := [PyClass 13 ∅; object_cls].

(** A second overridable operation, declared by [Base] too. *)
Definition other_func : function :=
  Function 6 "update_permission_classes"
    "<function Base.update_permission_classes at 0x6>" false None.

(** One possible hash of the key tuple and one possible set order. *)
Definition item_code (it : tuple_item) : Z :=
  match it with
  | TClass id => Z.pos id
  | TStr s => Z.of_nat (String.length s)
  end.

Definition toy_hash (t : list tuple_item) : Z :=
  foldr (λ it acc, item_code it + 31 * acc) 7 t.

Definition insertion_order : list function → list function := remove_dups.

(** A hash without collisions. *)
Definition exact_hash (t : list tuple_item) : Z := Z.pos (encode t).

(** The classes of a program, by their ids: [A] at priority 1, [B] at
    priority 2. *)
Definition class_table (i : positive) : pyclass :=
  match i with
  | 3%positive => A (Some 1)
  | 4%positive => B (Some 2)
  | 11%positive => Base
  | 12%positive => View
  | _ => PyClass i ∅
  end.

(** No function has resolved anything yet. *)
Definition fresh : store := λ _, ∅.

(** A caller and a call of function objects: the handler answers with its
    own address and leaves the store alone. *)
Definition view_instance (pa pb : option Z) : object :=
  Object 20 (view_mro pa pb).

(** Resolution with that hash and that set order. *)
Abbreviation resolve' := (resolve toy_hash insertion_order).
Abbreviation cache_valid' := (cache_valid toy_hash insertion_order).

Definition answer_call (handler : function) (instance : object)
    (args : list Z) (kwargs : list (string * Z)) (st : store) :
    (exn + Z) * store :=
  (inr (Z.pos (fn_id handler)), st).
End Scenario.

(** The hierarchies of a program, each a list of class ids of [table], have
    cache keys of their own: the hash has no collision among them. *)
Definition no_collision (hash : list tuple_item → Z)
    (func : function) (table : positive → pyclass)
    (hierarchies : list (list positive)) : Prop :=
  ∀ ids1 ids2, ids1 ∈ hierarchies → ids2 ∈ hierarchies →
    cache_key hash func (table <$> ids1) = cache_key hash func (table <$> ids2) →
    ids1 = ids2.

(** The cache holds no stale entry for any of the hierarchies. *)
Definition valid_on (hash : list tuple_item → Z)
    (py_set : list function → list function)
    (func : function) (table : positive → pyclass)
    (hierarchies : list (list positive)) (st : store) : Prop :=
  ∀ ids, ids ∈ hierarchies →
    cache_valid hash py_set func (table <$> ids) st.

(** * The permission decorator of [ecommerce/decorators.py] *)

(** What a call of a decorated view method can raise: [PermissionDenied] of
    rest_framework, and the [TypeError] of a call that does not fit the
    signature [_decorator(self, args, *kwargs)]. *)
Inductive call_exn :=
  | PermissionDenied
  | TypeError.

Section access_permissions.
(** A view instance and the state of the program; [has_perm st self p] is
    [self.request.user.has_perm(p)]. *)
Variable view : Type.
Variable state : Type.
Variable value : Type.
Variable has_perm : state → view → string → bool.

(** A call of a function on [self], the positional arguments that follow it
    and the keyword arguments. *)
Definition callable : Type :=
  view → list value → list (string * value) → state →
  (call_exn + value) * state.

(** The parameters of [_decorator(self, args, *kwargs)] (line 67): [args]
    takes the first positional argument after [self] and [kwargs] the
    others; there is no [**] parameter, so a keyword is accepted only when
    it names [args] and [args] has no positional argument. *)
Definition bind_decorator (positional : list value)
    (keywords : list (string * value)) : call_exn + value * list value :=
  match positional, keywords with
  | args :: kwargs, [] => inr (args, kwargs)
  | [], [(name, args)] =>
      if decide (name = "args") then inr (args, []) else inl TypeError
  | _, _ => inl TypeError
  end.

(** Lines 60-76: [access_permissions(permission)(drf_custom_method)]; the
    method is called as [drf_custom_method(self, args, *kwargs)]. *)
Definition access_permissions (permission : string)
    (drf_custom_method : callable) : callable :=
  λ self positional keywords st,
    match bind_decorator positional keywords with
    | inl e => (inl e, st)
    | inr (args, kwargs) =>
        let user_permission := permission in
        if has_perm st self user_permission
        then drf_custom_method self (args :: kwargs) [] st
        else (inl PermissionDenied, st)
    end.
End access_permissions.

(** * [ecommerce/utilities/view_mixins.py] *)

(** ** [_find_lte]

    [bisect.bisect_right(a, x)] as the standard library computes it:
    [lo, hi = 0, len(a)]; while [lo < hi], [mid = (lo + hi) // 2] and either
    [hi = mid], when [x < a[mid]], or [lo = mid + 1].  [None] stands for an
    [IndexError] of [a[mid]], or for a loop that has not ended after [fuel]
    rounds. *)
Fixpoint bisect_loop (fuel : nat) (a : list Z) (x : Z) (lo hi : nat) :
    option nat :=
  if (lo <? hi)%nat then
    match fuel with
    | O => None
    | S fuel' =>
        let mid := ((lo + hi) / 2)%nat in
        match a !! mid with
        | Some v =>
            if x <? v then bisect_loop fuel' a x lo mid
            else bisect_loop fuel' a x (mid + 1)%nat hi
        | None => None
        end
    end
  else Some lo.

Definition bisect_right (a : list Z) (x : Z) : option nat :=
  bisect_loop (length a) a x 0 (length a).

(** Lines 244-251.  The outer [None] is an exception, [Some None] is the
    [None] the function returns. *)
Definition _find_lte (sorted_list : list Z) (max_value : Z) :
    option (option Z) :=
  match bisect_right sorted_list max_value with
  | None => None
  | Some index =>
      if (index =? 0)%nat then Some None
      else
        match sorted_list !! (index - 1)%nat with
        | Some v => Some (Some v)
        | None => None
        end
  end.

(** ** [update_permission_classes] *)

Inductive permission_class :=
  | IsAuthenticated
  | AllowAny
  | OtherPermission (name : string).

#[global] Instance permission_class_eq_dec : EqDecision permission_class.
Proof. solve_decision. Defined.

(** A view instance as [update_permission_classes] reads it.
    [permission_classes] is the list object the attribute refers to: the
    list [[IsAuthenticated]] of line 42 is one object, shared by
    [GenericBaseView], its subclasses and all their instances, as long as
    none of them assigns the attribute. *)
Record api_view := ApiView {
  requires_authentication : bool;
  permission_classes : positive;
}.

(** The list objects, by their addresses. *)
Abbreviation heap := (gmap positive (list permission_class)).

(** [l.remove(x)] on a list that holds [x]: the first occurrence goes. *)
Fixpoint list_remove (x : permission_class) (l : list permission_class) :
    list permission_class :=
  match l with
  | [] => []
  | y :: l' => if decide (x = y) then l' else y :: list_remove x l'
  end.

(** Lines 66-69, the function [overridable] decorates. *)
Definition update_permission_classes (self : api_view) (h : heap) : heap :=
  match h !! permission_classes self with
  | Some classes =>
      if negb (requires_authentication self)
         && bool_decide (IsAuthenticated ∈ classes)
      then <[permission_classes self := list_remove IsAuthenticated classes]> h
      else h
  | None => h
  end.

(** [self.permission_classes], read. *)
Definition read_permission_classes (self : api_view) (h : heap) :
    list permission_class :=
  default [] (h !! permission_classes self).

(** ** [get_handler] and [invalidate_cache] *)

(** What the functions of the view raise themselves or let through. *)
Inductive view_exn :=
  | NoAttribute
  | AssertionError
  | Raised (name : string).

(** A handler, a bound method of the view: whether
    [getattr(func, 'endpoint_handler', False)] is true, and the attribute
    [method] when the function has one. *)
Record handler := Handler {
  handler_id : positive;
  endpoint_handler : bool;
  method : option string;
}.

(** A view instance as [get_handler] reads it: the handler it has kept,
    [self.request.method] when a request is set, the attributes found under
    the names of the HTTP methods and [self.http_method_not_allowed]. *)
Record base_view := BaseView {
  _handler : option handler;
  request : option string;
  view_attrs : gmap string handler;
  http_method_not_allowed : handler;
}.

(** [self.request = request], as [dispatch] does on line 116. *)
Definition set_request (r : option string) (self : base_view) : base_view :=
  BaseView (_handler self) r (view_attrs self) (http_method_not_allowed self).

(** Lines 71-74, the function [overridable] decorates. *)
Definition invalidate_cache (self : base_view) : base_view :=
  BaseView None None (view_attrs self) (http_method_not_allowed self).

Section get_handler.
(** [str.lower] *)
Variable lower : string → string.
(** [self.get_handler_candidates()] *)
Variable get_handler_candidates :
  base_view → (view_exn + list handler) * base_view.

(** The generator of lines 90-91, run by [next]: the first candidate marked
    [endpoint_handler] whose [method], lowered, is the lowered method of the
    request; [getattr(func, 'method')] raises when the attribute is
    missing. *)
Fixpoint next_endpoint_handler (wanted : string) (candidates : list handler) :
    view_exn + option handler :=
  match candidates with
  | [] => inr None
  | func :: rest =>
      if endpoint_handler func then
        match method func with
        | None => inl NoAttribute
        | Some m =>
            if decide (lower m = wanted) then inr (Some func)
            else next_endpoint_handler wanted rest
        end
      else next_endpoint_handler wanted rest
  end.

(** Lines 86-93, the function [overridable] decorates.  The default of
    [next] is computed before the generator runs, and reads
    [self.request.method]. *)
Definition get_handler (self : base_view) : (view_exn + handler) * base_view :=
  match _handler self with
  | Some h => (inr h, self)
  | None =>
      match get_handler_candidates self with
      | (inl e, self') => (inl e, self')
      | (inr candidates, self') =>
          match request self' with
          | None => (inl NoAttribute, self')
          | Some m =>
              let fallback :=
                default (http_method_not_allowed self')
                  (view_attrs self' !! lower m) in
              match next_endpoint_handler (lower m) candidates with
              | inl e => (inl e, self')
              | inr found =>
                  let h := default fallback found in
                  (inr h,
                   BaseView (Some h) (request self') (view_attrs self')
                     (http_method_not_allowed self'))
              end
          end
      end
  end.
End get_handler.

(** ** [get_object] and [get_object_without_checking_permissions] *)
Section get_object.
(** The querysets, the objects and the values of the object-relational
    layer; [get_object_or_404] and [queryset.filter(...).first()], both
    with the one keyword argument [field=value], and
    [self.check_object_permissions(self.request, obj)]. *)
Variable queryset obj value : Type.
Variable get_object_or_404 : queryset → string → value → view_exn + obj.
Variable filter_first : queryset → string → value → option obj.
Variable check_object_permissions : obj → option view_exn.

(** A view instance as the two functions read it; [filtered] is
    [self.filter_queryset(self.get_queryset())]. *)
Record lookup_view := LookupView {
  lookup_field : string;
  lookup_url_kwarg : option string;
  kwargs : gmap string value;
  filtered : queryset;
}.

(** The truth value of a string or [None]. *)
Definition truthy (s : option string) : bool :=
  match s with
  | Some s => negb (String.eqb s "")
  | None => false
  end.

(** [self.lookup_url_kwarg or self.lookup_field] *)
Definition url_kwarg_name (self : lookup_view) : string :=
  match lookup_url_kwarg self with
  | Some s => if truthy (Some s) then s else lookup_field self
  | None => lookup_field self
  end.

(** Lines 151-176. *)
Definition get_object (self : lookup_view) : view_exn + obj :=
  match kwargs self !! url_kwarg_name self with
  | None => inl AssertionError
  | Some v =>
      match get_object_or_404 (filtered self) (lookup_field self) v with
      | inl e => inl e
      | inr o =>
          match check_object_permissions o with
          | Some e => inl e
          | None => inr o
          end
      end
  end.

(** Lines 187-205. *)
Definition get_object_without_checking_permissions (self : lookup_view)
    (raise_404_on_not_found : bool) : view_exn + option obj :=
  if negb (truthy (lookup_url_kwarg self)) then inr None
  else
    match kwargs self !! url_kwarg_name self with
    | None => inl AssertionError
    | Some v =>
        if raise_404_on_not_found then
          match get_object_or_404 (filtered self) (lookup_field self) v with
          | inl e => inl e
          | inr o => inr (Some o)
          end
        else inr (filter_first (filtered self) (lookup_field self) v)
    end.
End get_object.

Arguments lookup_field {queryset value} _.
Arguments lookup_url_kwarg {queryset value} _.
Arguments kwargs {queryset value} _.
Arguments filtered {queryset value} _.
Arguments url_kwarg_name {queryset value} self.

(** * The password reset of [users]

    [users/models.py], [users/serializers.py] and [users/views.py] on a
    database of two tables.  Times are in microseconds, statements are
    committed one by one (Django's default). *)

Record user_row := UserRow {
  user_pk : positive;
  email : string;
  password : string;
  first_name : string;
  last_name : string;
  full_name : string;
}.

Record token_row := TokenRow {
  token_pk : positive;
  token_user : positive;
  token : string;
  created_at : Z;
}.

#[global] Instance user_row_eq_dec : EqDecision user_row.
Proof. solve_decision. Defined.

#[global] Instance token_row_eq_dec : EqDecision token_row.
Proof. solve_decision. Defined.

(** [next_pk] is the primary key the table of tokens gives to its next
    row. *)
Record database := Database {
  users : list user_row;
  tokens : list token_row;
  next_pk : positive;
}.

Inductive reset_exn :=
  | ValidationError (msg : string)
  | DoesNotExist
  | MultipleObjectsReturned
  | IntegrityError
  | MailError.

(** What a view answers: a response with its status, or an exception left
    to the framework. *)
Inductive http_result :=
  | Response (status : Z)
  | Raise (e : reset_exn).

(** [objects.get(...)] on the rows that match. *)
Definition objects_get {A : Type} (matching : list A) : reset_exn + A :=
  match matching with
  | [] => inl DoesNotExist
  | [row] => inr row
  | _ => inl MultipleObjectsReturned
  end.

(** [timedelta(hours=48)] *)
Definition hours_48 : Z := 48 * 3600 * 1000000.

(** [users/models.py], lines 121-123, at the time [now]. *)
Definition is_expired (now : Z) (self : token_row) : bool :=
  let delta := now - created_at self in
  hours_48 <? delta.

(** [users/models.py], lines 103-104. *)
Definition get_full_name (self : user_row) : string :=
  if negb (String.eqb (first_name self) "") && negb (String.eqb (last_name self) "")
  then first_name self +:+ " " +:+ last_name self
  else "".

(** [token.delete()]: the row of that primary key goes. *)
Definition delete_token (t : token_row) (db : database) : database :=
  Database (users db)
    (filter (λ r, token_pk r ≠ token_pk t) (tokens db)) (next_pk db).

(** [PasswordResetToken.objects.filter(user=user).delete()] *)
Definition delete_tokens_of (user : user_row) (db : database) : database :=
  Database (users db)
    (filter (λ r, token_user r ≠ user_pk user) (tokens db)) (next_pk db).

(** [PasswordResetToken.objects.create(user=user)] with [save] of
    [users/models.py], lines 114-119: the row has no id yet, so its token
    is [get_random_string(length=50)], here [random]; the column is unique,
    and the insertion fails on a token that is there already. *)
Definition create_token (now : Z) (random : string) (user : user_row)
    (db : database) : reset_exn + token_row * database :=
  if decide (random ∈ token <$> tokens db) then inl IntegrityError
  else
    let row := TokenRow (next_pk db) (user_pk user) random now in
    inr (row, Database (users db) (tokens db ++ [row]) (Pos.succ (next_pk db))).

(** [user.save()] with [save] of [users/models.py], lines 99-101: the full
    name is computed again, the row of that primary key is written. *)
Definition save_user (user : user_row) (db : database) : database :=
  let saved :=
    UserRow (user_pk user) (email user) (password user) (first_name user)
      (last_name user) (get_full_name user) in
  Database
    ((λ u, if decide (user_pk u = user_pk user) then saved else u) <$> users db)
    (tokens db) (next_pk db).

Section password_reset.
(** [make_password], which [set_password] stores, and
    [MailSender().forgot_password(recipient_list, password_reset_token)],
    which sends or raises. *)
Variable make_password : string → string.
Variable forgot_password : list string → string → option reset_exn.

(** [users/serializers.py], lines 182-192. *)
Definition validate_token (now : Z) (value : string) (db : database) :
    (reset_exn + token_row) * database :=
  match objects_get (filter (λ r, token r = value) (tokens db)) with
  | inr t =>
      if is_expired now t
      then (inl (ValidationError "Token is expired"), delete_token t db)
      else (inr t, db)
  | inl DoesNotExist =>
      (inl (ValidationError "PasswordResetToken does not exist."), db)
  | inl e => (inl e, db)
  end.

(** [users/serializers.py], lines 201-211; [token.user] reads the user of
    the token. *)
Definition reset_create (new_password : string) (t : token_row)
    (db : database) : (reset_exn + user_row) * database :=
  match objects_get (filter (λ u, user_pk u = token_user t) (users db)) with
  | inl e => (inl e, db)
  | inr user =>
      let user :=
        UserRow (user_pk user) (email user) (make_password new_password)
          (first_name user) (last_name user) (full_name user) in
      let db := save_user user db in
      let db := delete_token t db in
      (inr (UserRow (user_pk user) (email user) (password user)
              (first_name user) (last_name user) (get_full_name user)), db)
  end.

(** [users/views.py], lines 129-158: [RequestResetPasswordView.post], with
    [request.data.get("email", None)] as [email_field]. *)
Definition request_reset (now : Z) (random : string)
    (email_field : option string) (db : database) : http_result * database :=
  match email_field with
  | None => (Response 400, db)
  | Some address =>
      match objects_get (filter (λ u, email u = address) (users db)) with
      | inl DoesNotExist => (Response 404, db)
      | inl e => (Raise e, db)
      | inr user =>
          let db := delete_tokens_of user db in
          match create_token now random user db with
          | inl e => (Raise e, db)
          | inr (t, db) =>
              match forgot_password [email user] (token t) with
              | Some e => (Raise e, db)
              | None => (Response 200, db)
              end
          end
      end
  end.
End password_reset.

(** ** Sample data *)
Module Samples.
(** Another possible set order. *)
Definition reversed_order (l : list function) : list function :=
  reverse (remove_dups l).

(** Resolutions, in order, of [View(Base)], of [View(Base, A, B)] and of a
    hierarchy outside the program's own classes. *)
Definition sample_runs : list (list positive) :=
  [[12; 11; 10]; [12; 11; 3; 4; 10]; [13; 10]]%positive.

(** A hash of 64 bits, signed as Python's. *)
Definition hash64 (t : list tuple_item) : Z :=
  (Scenario.toy_hash t + 2 ^ 63) `mod` 2 ^ 64 - 2 ^ 63.

(** Two views that share the list object at address 1, and the heap that
    holds the list of [GenericBaseView]. *)
Definition open_view : api_view := ApiView false 1.
Definition closed_view : api_view := ApiView true 1.
Definition class_lists : heap := {[ 1%positive := [IsAuthenticated] ]}.

(** A view with a plain [get] method and an endpoint handler for GET, a
    request just assigned, and the candidates it finds. *)
Definition plain_get : handler := Handler 1 false None.
Definition endpoint_get : handler := Handler 2 true (Some "get").
Definition not_allowed : handler := Handler 3 false None.

Definition sample_view : base_view :=
  BaseView None (Some "get") {[ "get" := plain_get ]} not_allowed.

Definition sample_candidates (self : base_view) :
    (view_exn + list handler) * base_view :=
  (inr [plain_get; endpoint_get], self).

(** Querysets as lists of primary keys. *)
Definition pk_get_object_or_404 (q : list Z) (field : string) (v : Z) :
    view_exn + Z :=
  if decide (v ∈ q) then inr v else inl (Raised "Http404").

Definition pk_filter_first (q : list Z) (field : string) (v : Z) : option Z :=
  if decide (v ∈ q) then Some v else None.

Definition allow_all (o : Z) : option view_exn := None.

(** The default configuration of [GenericBaseView], on a route with the
    keyword [pk], and a view that names its URL keyword. *)
Definition default_lookup : lookup_view (list Z) Z :=
  LookupView (list Z) Z "pk" None {[ "pk" := 7 ]} [5; 7].

Definition named_lookup : lookup_view (list Z) Z :=
  LookupView (list Z) Z "pk" (Some "user_id") {[ "user_id" := 7 ]} [5; 7].

(** Two users, each with a token; a password hash and a mail that is always
    sent. *)
Definition alice : user_row :=
  UserRow 1 "alice@example.org" "hash:old" "Alice" "Adams" "Alice Adams".
Definition bob : user_row :=
  UserRow 2 "bob@example.org" "hash:bob" "Bob" "" "".

Definition alice_token : token_row := TokenRow 1 1 "token-of-alice" 0.
Definition bob_token : token_row := TokenRow 2 2 "token-of-bob" 5.

Definition sample_db : database :=
  Database [alice; bob] [alice_token; bob_token] 3.

Definition sample_make_password (raw : string) : string := "hash:" +:+ raw.

Definition mail_sent (recipient_list : list string) (reset_token : string) :
    option reset_exn := None.
End Samples.

(** ** Sorting *)
Section sorted_facts.
Context {A : Type} (key : A → Z).

Lemma insort_Permutation reverse x (l : list A) :
  insort key reverse x l ≡ₚ x :: l.
Proof.
  induction l as [|y l IH]; simpl; [done|].
  destruct (goes_after key reverse x y); [|done].
  rewrite IH. apply Permutation_swap.
Qed.

Lemma sorted_Permutation reverse (l : list A) : sorted key reverse l ≡ₚ l.
Proof.
  induction l as [|x l IH]; simpl; [done|].
  unfold sorted in *. simpl. by rewrite insort_Permutation, IH.
Qed.

Lemma insort_descending x (l : list A) :
  StronglySorted (descending key) l →
  StronglySorted (descending key) (insort key true x l).
Proof.
  induction 1 as [|y l Hl IH Hy]; simpl.
  - repeat constructor.
  - unfold goes_after. destruct (Z.ltb_spec (key x) (key y)) as [Hlt|Hge].
    + constructor; [done|].
      rewrite list.Forall_forall. intros z Hz.
      rewrite insort_Permutation in Hz.
      apply elem_of_cons in Hz as [->|Hz].
      * unfold descending. lia.
      * rewrite list.Forall_forall in Hy. by apply Hy.
    + constructor; [by constructor|].
      constructor; [done|].
      rewrite list.Forall_forall in Hy |- *. intros z Hz.
      specialize (Hy z Hz). unfold descending in *. lia.
Qed.

Lemma sorted_descending (l : list A) :
  StronglySorted (descending key) (sorted key true l).
Proof.
  induction l as [|x l IH]; [constructor|].
  apply insort_descending, IH.
Qed.
End sorted_facts.

(** ** The shape of a sorted list of handlers *)
Section handler_lists.
Implicit Types hs : list function.

Lemma ambiguous_Some hs e :
  ambiguous hs = Some e →
  ∃ x y rest, hs = x :: y :: rest ∧
    getattr_priority x = getattr_priority y ∧
    e = AttributeError (ambiguity_message x y).
Proof.
  destruct hs as [|x [|y rest]]; simpl; try done.
  case_decide; [|done]. intros [= <-]. by exists x, y, rest.
Qed.

Lemma ambiguous_None hs :
  ambiguous hs = None →
  ∀ x y rest, hs = x :: y :: rest → getattr_priority x ≠ getattr_priority y.
Proof.
  intros Hamb x y rest ->. simpl in Hamb. by case_decide.
Qed.

(** The head of a descending list carries the largest key. *)
Lemma descending_head x hs c :
  StronglySorted (descending getattr_priority) (x :: hs) →
  c ∈ x :: hs → getattr_priority c ≤ getattr_priority x.
Proof.
  intros Hs Hc. apply StronglySorted_inv in Hs as [_ Hx].
  apply elem_of_cons in Hc as [->|Hc]; [lia|].
  rewrite list.Forall_forall in Hx. by apply Hx.
Qed.

(** A handler strictly above all others comes first, and no tie is seen. *)
Lemma top_unique hs t :
  NoDup hs → StronglySorted (descending getattr_priority) hs →
  t ∈ hs →
  (∀ c, c ∈ hs → c ≠ t → getattr_priority c < getattr_priority t) →
  head hs = Some t ∧ ambiguous hs = None.
Proof.
  intros Hnd Hs Ht Htop.
  destruct hs as [|x rest]; [by apply elem_of_nil in Ht|].
  assert (x = t) as ->.
  { destruct (decide (x = t)) as [|Hne]; [done|].
    pose proof (descending_head _ _ _ Hs Ht).
    specialize (Htop x ltac:(left) Hne). lia. }
  split; [done|].
  destruct rest as [|y rest]; [done|]. simpl.
  apply list.NoDup_cons in Hnd as [Hnt _].
  assert (y ≠ t) as Hne by (intros ->; apply Hnt; left).
  specialize (Htop y ltac:(right; left) Hne).
  case_decide; [lia|done].
Qed.

(** Two distinct handlers at the largest priority: the two first handlers
    are two such handlers. *)
Lemma top_tie hs a b :
  NoDup hs → StronglySorted (descending getattr_priority) hs →
  a ∈ hs → b ∈ hs → a ≠ b →
  getattr_priority a = getattr_priority b →
  (∀ c, c ∈ hs → getattr_priority c ≤ getattr_priority a) →
  ∃ x y rest, hs = x :: y :: rest ∧ x ≠ y ∧
    getattr_priority x = getattr_priority a ∧
    getattr_priority y = getattr_priority a.
Proof.
  intros Hnd Hs Ha Hb Hab Hprio Hmax.
  destruct hs as [|x [|y rest]].
  - by apply elem_of_nil in Ha.
  - apply list_elem_of_singleton in Ha, Hb. congruence.
  - exists x, y, rest. split; [done|].
    pose proof (Hmax x ltac:(left)) as Hx.
    pose proof (Hmax y ltac:(right; left)) as Hy.
    pose proof (descending_head _ _ _ Hs Ha) as Hax.
    apply StronglySorted_inv in Hs as [Hs' _].
    apply list.NoDup_cons in Hnd as [Hxn _].
    assert (x ≠ y) by (intros ->; apply Hxn; left).
    assert (∃ c, c ∈ y :: rest ∧ getattr_priority c = getattr_priority a)
      as (c & Hc & Hca).
    { apply elem_of_cons in Ha as [->|Ha]; [|by exists a].
      apply elem_of_cons in Hb as [->|Hb]; [done|]. by exists b. }
    pose proof (descending_head _ _ _ Hs' Hc). repeat split; [done|lia|lia].
Qed.
End handler_lists.

(** ** The scan *)
Section scan_facts.
Variable py_set : list function → list function.
Hypothesis py_set_NoDup : ∀ l, NoDup (py_set l).
Hypothesis py_set_elem_of : ∀ l x, x ∈ py_set l ↔ x ∈ l.

Lemma elem_of_handlers func mro f :
  f ∈ handlers py_set func mro ↔ override_candidate func mro f.
Proof.
  unfold handlers, candidates, override_candidate.
  rewrite sorted_Permutation, py_set_elem_of, list_elem_of_filter,
    py_set_elem_of, list_elem_of_omap.
  split.
  - intros [Hov (cls & Hcls & Hget)]. by exists cls.
  - intros (cls & Hcls & Hget & Hov). split; [done|by exists cls].
Qed.

Lemma NoDup_handlers func mro : NoDup (handlers py_set func mro).
Proof. unfold handlers. rewrite sorted_Permutation. apply py_set_NoDup. Qed.

Lemma handlers_descending func mro :
  StronglySorted (descending getattr_priority) (handlers py_set func mro).
Proof. apply sorted_descending. Qed.

(** No override candidate: the decorated function is the handler. *)
Lemma scan_none func mro :
  (∀ f, ¬ override_candidate func mro f) → scan py_set func mro = inr func.
Proof.
  intros Hnone. unfold scan.
  destruct (handlers py_set func mro) as [|f hs] eqn:Hh; [done|].
  destruct (Hnone f). apply elem_of_handlers. rewrite Hh. left.
Qed.

(** An override candidate strictly above all others is the handler. *)
Lemma scan_top_unique func mro t :
  override_candidate func mro t →
  (∀ c, override_candidate func mro c → c ≠ t →
        getattr_priority c < getattr_priority t) →
  scan py_set func mro = inr t.
Proof.
  intros Ht Htop. unfold scan.
  destruct (top_unique (handlers py_set func mro) t) as [Hhead Hamb].
  - apply NoDup_handlers.
  - apply handlers_descending.
  - by apply elem_of_handlers.
  - intros c Hc. apply Htop. by apply elem_of_handlers.
  - by rewrite Hamb, Hhead.
Qed.

(** Two distinct override candidates at the highest priority: the scan
    raises, and shows two such candidates. *)
Lemma scan_top_tie func mro a b :
  override_candidate func mro a →
  override_candidate func mro b →
  a ≠ b →
  getattr_priority a = getattr_priority b →
  (∀ c, override_candidate func mro c →
        getattr_priority c ≤ getattr_priority a) →
  ∃ x y,
    scan py_set func mro = inl (AttributeError (ambiguity_message x y)) ∧
    x ≠ y ∧
    override_candidate func mro x ∧ override_candidate func mro y ∧
    getattr_priority x = getattr_priority a ∧
    getattr_priority y = getattr_priority a.
Proof.
  intros Ha Hb Hab Htie Hmax.
  destruct (top_tie (handlers py_set func mro) a b)
    as (x & y & rest & Hh & Hxy & Hx & Hy).
  { apply NoDup_handlers. }
  { apply handlers_descending. }
  { by apply elem_of_handlers. }
  { by apply elem_of_handlers. }
  { done. }
  { done. }
  { intros c Hc. apply Hmax. by apply elem_of_handlers. }
  exists x, y. repeat split; try done.
  - unfold scan. rewrite Hh. simpl. case_decide; [done|lia].
  - apply elem_of_handlers. rewrite Hh. left.
  - apply elem_of_handlers. rewrite Hh. right. left.
Qed.

(** The scan raises for no other reason. *)
Lemma scan_inl_inv func mro e :
  scan py_set func mro = inl e →
  ∃ x y,
    e = AttributeError (ambiguity_message x y) ∧ x ≠ y ∧
    override_candidate func mro x ∧ override_candidate func mro y ∧
    getattr_priority x = getattr_priority y ∧
    ∀ c, override_candidate func mro c →
         getattr_priority c ≤ getattr_priority x.
Proof.
  unfold scan. intros Hscan.
  destruct (ambiguous (handlers py_set func mro)) as [e'|] eqn:Hamb; [|done].
  injection Hscan as ->.
  apply ambiguous_Some in Hamb as (x & y & rest & Hh & Hxy & ->).
  pose proof (NoDup_handlers func mro) as Hnd.
  pose proof (handlers_descending func mro) as Hs.
  rewrite Hh in Hnd, Hs.
  exists x, y. repeat split; try done.
  - apply list.NoDup_cons in Hnd as [Hx _]. intros ->. apply Hx. left.
  - apply elem_of_handlers. rewrite Hh. left.
  - apply elem_of_handlers. rewrite Hh. right. left.
  - intros c Hc. apply elem_of_handlers in Hc. rewrite Hh in Hc.
    by apply (descending_head x (y :: rest)).
Qed.
End scan_facts.

(** ** The two paths of [resolve] *)
Section resolve_paths.
Variable hash : list tuple_item → Z.
Variable py_set : list function → list function.

Lemma resolve_hit func mro st h :
  st func !! cache_key hash func mro = Some h →
  resolve hash py_set func mro st = Resolution (inr h) st [].
Proof. unfold resolve. by intros ->. Qed.

Lemma resolve_miss_inr func mro st h :
  st func !! cache_key hash func mro = None →
  scan py_set func mro = inr h →
  resolve hash py_set func mro st =
    Resolution (inr h)
      (<[func := <[cache_key hash func mro := h]> (st func)]> st)
      (cls_id <$> mro).
Proof. unfold resolve. by intros -> ->. Qed.

Lemma resolve_miss_inl func mro st e :
  st func !! cache_key hash func mro = None →
  scan py_set func mro = inl e →
  resolve hash py_set func mro st = Resolution (inl e) st (cls_id <$> mro).
Proof. unfold resolve. by intros -> ->. Qed.

(** A failed resolution was a miss whose scan raised. *)
Lemma resolve_inl_inv func mro st e :
  outcome (resolve hash py_set func mro st) = inl e →
  st func !! cache_key hash func mro = None ∧ scan py_set func mro = inl e.
Proof.
  unfold resolve.
  destruct (st func !! cache_key hash func mro); [done|].
  destruct (scan py_set func mro); simpl; [|done].
  by intros [= ->].
Qed.

(** After a successful resolution the handler is in the cache. *)
Lemma resolve_inr_cached func mro st h :
  outcome (resolve hash py_set func mro st) = inr h →
  store_after (resolve hash py_set func mro st) func
    !! cache_key hash func mro = Some h.
Proof.
  unfold resolve.
  destruct (st func !! cache_key hash func mro) eqn:Hc; simpl.
  - by intros [= <-].
  - destruct (scan py_set func mro); simpl; [done|].
    intros [= <-]. by rewrite fn_lookup_insert, lookup_insert_eq.
Qed.

(** [resolve] reads nothing of the store but the cache of [func]. *)
Lemma resolve_reads_own_cache func mro st st' :
  st func = st' func →
  outcome (resolve hash py_set func mro st') =
    outcome (resolve hash py_set func mro st) ∧
  scanned (resolve hash py_set func mro st') =
    scanned (resolve hash py_set func mro st) ∧
  store_after (resolve hash py_set func mro st') func =
    store_after (resolve hash py_set func mro st) func.
Proof.
  intros Heq. unfold resolve. rewrite <- Heq.
  destruct (st func !! cache_key hash func mro); simpl; [done|].
  destruct (scan py_set func mro); simpl; [done|].
  by rewrite !fn_lookup_insert.
Qed.

(** [resolve] writes nothing of the store but the cache of [func]. *)
Lemma resolve_writes_own_cache func mro st g :
  g ≠ func → store_after (resolve hash py_set func mro st) g = st g.
Proof.
  intros Hne. unfold resolve.
  destruct (st func !! cache_key hash func mro); [done|].
  destruct (scan py_set func mro); simpl; [done|].
  by rewrite fn_lookup_insert_ne.
Qed.

(** [resolve] writes no key of the cache of [func] but the cache key. *)
Lemma resolve_writes_own_key func mro st k :
  k ≠ cache_key hash func mro →
  store_after (resolve hash py_set func mro st) func !! k = st func !! k.
Proof.
  intros Hk. unfold resolve.
  destruct (st func !! cache_key hash func mro); [done|].
  destruct (scan py_set func mro); simpl; [done|].
  by rewrite fn_lookup_insert, lookup_insert_ne.
Qed.

(** A resolution that leaves the store as it found it can be repeated at
    will. *)
Lemma resolve_times_fixed n func mro st :
  store_after (resolve hash py_set func mro st) = st →
  resolve_times hash py_set n func mro st = st.
Proof. intros Hfix. induction n as [|n IH]; simpl; [done|]. by rewrite Hfix. Qed.

(** *** Caches without stale entries *)

Lemma cache_valid_miss func mro st :
  st func !! cache_key hash func mro = None →
  cache_valid hash py_set func mro st.
Proof. intros Hmiss h Hh. congruence. Qed.

Lemma cache_valid_decorator func mro st :
  cache_valid hash py_set func mro (decorator func st).
Proof.
  apply cache_valid_miss. unfold decorator. by rewrite fn_lookup_insert.
Qed.

Lemma cache_valid_resolve func mro st :
  cache_valid hash py_set func mro st →
  cache_valid hash py_set func mro
    (store_after (resolve hash py_set func mro st)).
Proof.
  intros Hvalid h. unfold resolve.
  destruct (st func !! cache_key hash func mro) as [h'|] eqn:Hc; simpl.
  - rewrite Hc. intros [= <-]. by apply Hvalid.
  - destruct (scan py_set func mro) as [e|h'] eqn:Hscan; simpl.
    + by rewrite Hc.
    + rewrite fn_lookup_insert, lookup_insert_eq. by intros [= <-].
Qed.

(** On a cache without stale entry, a resolution gives what a scan gives. *)
Lemma resolve_outcome func mro st :
  cache_valid hash py_set func mro st →
  outcome (resolve hash py_set func mro st) = scan py_set func mro.
Proof.
  intros Hvalid. unfold resolve.
  destruct (st func !! cache_key hash func mro) as [h|] eqn:Hc; simpl.
  - symmetry. by apply Hvalid.
  - by destruct (scan py_set func mro).
Qed.
End resolve_paths.

(** ** Programs whose classes do not change

    When the hash has no collision and the hierarchies resolved are made of
    the classes of one table, no store the program reaches from the
    decoration of [func] holds a stale entry: every resolution returns what
    a scan of its hierarchy finds. *)
Section static_classes.
Variable hash : list tuple_item → Z.
Variable py_set : list function → list function.
Hypothesis hash_inj : ∀ t1 t2, hash t1 = hash t2 → t1 = t2.
Variable func : function.
Variable table : positive → pyclass.
Hypothesis table_id : ∀ i, cls_id (table i) = i.

Lemma cache_key_inj ids ids' :
  cache_key hash func (table <$> ids) = cache_key hash func (table <$> ids') →
  ids = ids'.
Proof.
  unfold cache_key. intros Heq. apply hash_inj in Heq.
  apply app_inj_tail in Heq as [Heq _].
  rewrite <- !list_fmap_compose in Heq.
  assert (∀ l : list positive,
            (TClass ∘ cls_id ∘ table) <$> l = TClass <$> l) as Hext.
  { intros l. apply list_fmap_ext. intros _ i _. simpl. by rewrite table_id. }
  rewrite !Hext in Heq.
  assert (Inj (=) (=) TClass) by (by intros i j [= ->]).
  revert Heq. apply (inj (fmap TClass)).
Qed.

Lemma no_stale_entry_decorator st :
  no_stale_entry hash py_set func table (decorator func st).
Proof. intros ids. apply cache_valid_decorator. Qed.

Lemma no_stale_entry_resolve ids st :
  no_stale_entry hash py_set func table st →
  no_stale_entry hash py_set func table
    (store_after (resolve hash py_set func (table <$> ids) st)).
Proof.
  intros Hvalid ids'.
  destruct (decide (cache_key hash func (table <$> ids')
                    = cache_key hash func (table <$> ids))) as [Heq|Hne].
  - apply cache_key_inj in Heq as ->. apply cache_valid_resolve, Hvalid.
  - intros h. rewrite resolve_writes_own_key by done. apply Hvalid.
Qed.

Lemma no_stale_entry_resolve_all runs st :
  no_stale_entry hash py_set func table st →
  no_stale_entry hash py_set func table
    (resolve_all hash py_set func table runs st).
Proof.
  revert st. induction runs as [|ids runs IH]; intros st Hvalid; simpl; [done|].
  apply IH. by apply no_stale_entry_resolve.
Qed.

Lemma resolve_all_outcome runs st ids :
  outcome (resolve hash py_set func (table <$> ids)
             (resolve_all hash py_set func table runs (decorator func st)))
  = scan py_set func (table <$> ids).
Proof.
  apply resolve_outcome, no_stale_entry_resolve_all, no_stale_entry_decorator.
Qed.
End static_classes.

Lemma exact_hash_inj t1 t2 :
  Scenario.exact_hash t1 = Scenario.exact_hash t2 → t1 = t2.
Proof. unfold Scenario.exact_hash. intros [= Heq]. by apply (inj encode). Qed.

Lemma class_table_id i : cls_id (Scenario.class_table i) = i.
Proof.
  unfold Scenario.class_table.
  repeat (destruct i as [i|i|]; try reflexivity).
Qed.

(** Whatever hierarchies of the table were resolved before, [View(Base, A,
    B)] resolves to what its scan finds. *)
Example resolve_all_view runs st :
  outcome (resolve Scenario.exact_hash Scenario.insertion_order
             Scenario.base_func
             (Scenario.class_table <$> [12; 11; 3; 4; 10]%positive)
             (resolve_all Scenario.exact_hash Scenario.insertion_order
                Scenario.base_func Scenario.class_table runs
                (decorator Scenario.base_func st)))
  = inr (Scenario.b_func (Some 2)).
Proof.
  rewrite (resolve_all_outcome _ _ exact_hash_inj _ _ class_table_id).
  vm_compute. reflexivity.
Qed.

(** The message of a tie, in full: [View(Base, A, B)] with both mixins at
    priority 2. *)
Example resolve_tie_message :
  outcome (Scenario.resolve' Scenario.base_func
             (Scenario.view_mro (Some 2) (Some 2)) Scenario.fresh)
  = inl (AttributeError
           ("Cannot find a more specific overriding method: " +:+
            "<function A.get_serializer_context at 0x3>" +:+ " or " +:+
            "<function B.get_serializer_context at 0x4>" +:+
            ". Use the 'priority' param.")).
Proof. vm_compute. reflexivity. Qed.

(** A stale entry: once [View(Base, A, B)] has resolved, the cached handler
    is returned also after the priorities of [A] and [B] are changed on the
    same classes, which would now resolve to [A]. *)
Example resolve_stale_entry :
  outcome (Scenario.resolve' Scenario.base_func (Scenario.view_mro (Some 2) (Some 1))
             (store_after
                (Scenario.resolve' Scenario.base_func
                   (Scenario.view_mro (Some 1) (Some 2)) Scenario.fresh)))
  = inr (Scenario.b_func (Some 2)) ∧
  scan Scenario.insertion_order Scenario.base_func
    (Scenario.view_mro (Some 2) (Some 1))
  = inr (Scenario.a_func (Some 2)).
Proof. split; vm_compute; reflexivity. Qed.

(** ** The override candidates of the concrete hierarchies *)
Section scenario_facts.
Import Scenario.

Lemma plain_candidates f : ¬ override_candidate base_func plain_mro f.
Proof.
  intros (cls & Hcls & Hget & Hov). unfold plain_mro in Hcls.
  repeat (apply elem_of_cons in Hcls as [->|Hcls]);
    [..|by apply elem_of_nil in Hcls];
    vm_compute in Hget; by simplify_eq.
Qed.

Lemma stranger_no_implementation : no_implementation base_func stranger_mro.
Proof.
  intros cls Hcls. unfold stranger_mro in Hcls.
  repeat (apply elem_of_cons in Hcls as [->|Hcls]);
    [..|by apply elem_of_nil in Hcls]; reflexivity.
Qed.

Lemma view1_candidates pa f :
  override_candidate base_func (view1_mro pa) f ↔ f = a_func pa.
Proof.
  split.
  - intros (cls & Hcls & Hget & Hov). unfold view1_mro in Hcls.
    repeat (apply elem_of_cons in Hcls as [->|Hcls]);
      [..|by apply elem_of_nil in Hcls];
      vm_compute in Hget; by simplify_eq.
  - intros ->. exists (A pa). split; [|done].
    unfold view1_mro. do 2 right. left.
Qed.

Lemma view_candidates pa pb f :
  override_candidate base_func (view_mro pa pb) f ↔
  f = a_func pa ∨ f = b_func pb.
Proof.
  split.
  - intros (cls & Hcls & Hget & Hov). unfold view_mro in Hcls.
    repeat (apply elem_of_cons in Hcls as [->|Hcls]);
      [..|by apply elem_of_nil in Hcls];
      vm_compute in Hget; simplify_eq; auto.
  - intros [->| ->].
    + exists (A pa). split; [|done]. unfold view_mro. do 2 right. left.
    + exists (B pb). split; [|done]. unfold view_mro. do 3 right. left.
Qed.

Lemma view3_candidates pa pb pc f :
  override_candidate base_func (view3_mro pa pb pc) f ↔
  f = a_func pa ∨ f = b_func pb ∨ f = c_func pc.
Proof.
  split.
  - intros (cls & Hcls & Hget & Hov). unfold view3_mro in Hcls.
    repeat (apply elem_of_cons in Hcls as [->|Hcls]);
      [..|by apply elem_of_nil in Hcls];
      vm_compute in Hget; simplify_eq; auto.
  - intros [->|[->| ->]].
    + exists (A pa). split; [|done]. unfold view3_mro. do 2 right. left.
    + exists (B pb). split; [|done]. unfold view3_mro. do 3 right. left.
    + exists (C pc). split; [|done]. unfold view3_mro. do 4 right. left.
Qed.

Lemma insertion_order_NoDup l : NoDup (insertion_order l).
Proof. apply NoDup_remove_dups. Qed.

Lemma insertion_order_elem_of l x : x ∈ insertion_order l ↔ x ∈ l.
Proof. apply elem_of_remove_dups. Qed.
End scenario_facts.

(** ** What a resolution returns *)
Section resolution.
Variable hash : list tuple_item → Z.
Variable py_set : list function → list function.
Hypothesis py_set_NoDup : ∀ l, NoDup (py_set l).
Hypothesis py_set_elem_of : ∀ l x, x ∈ py_set l ↔ x ∈ l.

(** C5: when the hierarchy holds no override candidate for the operation,
    resolution returns the decorated (base) function itself, and leaves it
    in the cache under the cache key. *)
Theorem resolve_no_override func mro st :
  cache_valid hash py_set func mro st →
  (∀ f, ¬ override_candidate func mro f) →
  outcome (resolve hash py_set func mro st) = inr func ∧
  store_after (resolve hash py_set func mro st) func
    !! cache_key hash func mro = Some func.
Proof.
  intros Hvalid Hnone.
  assert (outcome (resolve hash py_set func mro st) = inr func) as Hout.
  { rewrite resolve_outcome by done. by apply scan_none. }
  split; [done|]. by apply resolve_inr_cached.
Qed.

(** C4: when the hierarchy holds exactly one override candidate for the
    operation, resolution returns that candidate, whatever its priority,
    set or not. *)
Theorem resolve_single_override func mro st f :
  cache_valid hash py_set func mro st →
  override_candidate func mro f →
  (∀ g, override_candidate func mro g → g = f) →
  outcome (resolve hash py_set func mro st) = inr f.
Proof.
  intros Hvalid Hf Honly. rewrite resolve_outcome by done.
  apply scan_top_unique; [done..|].
  intros c Hc Hne. by destruct Hne; apply Honly.
Qed.

(** C3: when the hierarchy holds two override candidates of distinct
    priorities, resolution returns the one of higher priority.  For
    [View(Base, A, B)] freshly decorated, [A] at priority 1 and [B] at
    priority 2 give the function of [B]; [A] at priority 2 and [B] at
    priority 1 give the function of [A]. *)
Theorem resolve_two_overrides :
  (∀ func mro st a b,
     cache_valid hash py_set func mro st →
     override_candidate func mro a →
     override_candidate func mro b →
     (∀ c, override_candidate func mro c → c = a ∨ c = b) →
     getattr_priority b < getattr_priority a →
     outcome (resolve hash py_set func mro st) = inr a) ∧
  (∀ st,
     outcome (resolve hash py_set Scenario.base_func
                (Scenario.view_mro (Some 1) (Some 2))
                (decorator Scenario.base_func st))
     = inr (Scenario.b_func (Some 2))) ∧
  (∀ st,
     outcome (resolve hash py_set Scenario.base_func
                (Scenario.view_mro (Some 2) (Some 1))
                (decorator Scenario.base_func st))
     = inr (Scenario.a_func (Some 2))).
Proof.
  assert (∀ func mro st a b,
     cache_valid hash py_set func mro st →
     override_candidate func mro a →
     override_candidate func mro b →
     (∀ c, override_candidate func mro c → c = a ∨ c = b) →
     getattr_priority b < getattr_priority a →
     outcome (resolve hash py_set func mro st) = inr a) as Hgen.
  { intros func mro st a b Hvalid Ha Hb Honly Hlt.
    rewrite resolve_outcome by done. apply scan_top_unique; [done..|].
    intros c Hc Hne. destruct (Honly c Hc) as [->| ->]; [done|lia]. }
  split; [exact Hgen|]. split; intros st.
  - apply Hgen with (b := Scenario.a_func (Some 1)).
    + apply cache_valid_decorator.
    + apply view_candidates. by right.
    + apply view_candidates. by left.
    + intros c Hc. apply view_candidates in Hc. tauto.
    + done.
  - apply Hgen with (b := Scenario.b_func (Some 1)).
    + apply cache_valid_decorator.
    + apply view_candidates. by left.
    + apply view_candidates. by right.
    + intros c Hc. apply view_candidates in Hc. tauto.
    + done.
Qed.

(** C6: when one override candidate is strictly above all others and two
    of the others tie right below it (priorities 3, 2, 2), resolution raises
    nothing and returns the top candidate. *)
Theorem resolve_lower_tie_ignored func mro st t b c :
  cache_valid hash py_set func mro st →
  override_candidate func mro t →
  override_candidate func mro b →
  override_candidate func mro c →
  b ≠ c →
  getattr_priority b = getattr_priority c →
  getattr_priority b < getattr_priority t →
  (∀ d, override_candidate func mro d → d ≠ t →
        getattr_priority d ≤ getattr_priority b) →
  outcome (resolve hash py_set func mro st) = inr t.
Proof.
  intros Hvalid Ht Hb Hc Hbc Htie Hlt Hrest.
  rewrite resolve_outcome by done. apply scan_top_unique; [done..|].
  intros d Hd Hne. specialize (Hrest d Hd Hne). lia.
Qed.

(** C1: when at least two override candidates exist and two of them share
    the highest priority, resolution raises the exception of lines 44-46.
    Its message is the text of those lines around the [__str__] of two
    distinct override candidates of that highest priority (the two tied
    ones, when only two are tied), so it names them both; no handler is
    returned and the store is left as it was. *)
Theorem resolve_top_tie_raises func mro st a b :
  cache_valid hash py_set func mro st →
  override_candidate func mro a →
  override_candidate func mro b →
  a ≠ b →
  getattr_priority a = getattr_priority b →
  (∀ c, override_candidate func mro c →
        getattr_priority c ≤ getattr_priority a) →
  ∃ x y,
    resolve hash py_set func mro st =
      Resolution
        (inl (AttributeError
                ("Cannot find a more specific overriding method: " +:+
                 __str__ x +:+ " or " +:+ __str__ y +:+
                 ". Use the 'priority' param.")))
        st (cls_id <$> mro) ∧
    x ≠ y ∧
    override_candidate func mro x ∧ override_candidate func mro y ∧
    getattr_priority x = getattr_priority a ∧
    getattr_priority y = getattr_priority a ∧
    ((∀ c, override_candidate func mro c → c ≠ a → c ≠ b →
           getattr_priority c < getattr_priority a) →
     (x = a ∧ y = b) ∨ (x = b ∧ y = a)).
Proof.
  intros Hvalid Ha Hb Hab Htie Hmax.
  destruct (scan_top_tie py_set py_set_NoDup py_set_elem_of func mro a b)
    as (x & y & Hscan & Hxy & Hcx & Hcy & Hx & Hy); [done..|].
  exists x, y. split.
  { apply resolve_miss_inl; [|done].
    destruct (st func !! cache_key hash func mro) as [h|] eqn:Hc; [|done].
    specialize (Hvalid h Hc). congruence. }
  repeat split; try done.
  intros Hothers.
  assert (∀ z, override_candidate func mro z →
               getattr_priority z = getattr_priority a → z = a ∨ z = b) as Htop.
  { intros z Hz Hpz. destruct (decide (z = a)) as [|Hza]; [by left|].
    destruct (decide (z = b)) as [|Hzb]; [by right|].
    specialize (Hothers z Hz Hza Hzb). lia. }
  destruct (Htop x Hcx Hx) as [->| ->], (Htop y Hcy Hy) as [->| ->];
    tauto.
Qed.

(** C7, as the code has it: when no class of the hierarchy exposes the
    operation, resolution does not fail.  It returns a handler, which is the
    decorated function itself unless the cache holds a stale entry, and
    leaves it in the cache under the cache key. *)
Theorem resolve_no_implementation func mro st :
  no_implementation func mro →
  (∃ h, outcome (resolve hash py_set func mro st) = inr h) ∧
  (cache_valid hash py_set func mro st →
   outcome (resolve hash py_set func mro st) = inr func ∧
   store_after (resolve hash py_set func mro st) func
     !! cache_key hash func mro = Some func).
Proof.
  intros Hnone.
  assert (scan py_set func mro = inr func) as Hscan.
  { apply scan_none; [done|].
    intros f (cls & Hcls & Hget & _). by rewrite (Hnone cls Hcls) in Hget. }
  split.
  - destruct (st func !! cache_key hash func mro) as [h|] eqn:Hc.
    + exists h. by rewrite (resolve_hit _ _ _ _ _ h).
    + exists func. by rewrite (resolve_miss_inr _ _ _ _ _ func).
  - intros Hvalid.
    assert (outcome (resolve hash py_set func mro st) = inr func) as Hout.
    { by rewrite resolve_outcome. }
    split; [done|]. by apply resolve_inr_cached.
Qed.
End resolution.

(** ** The cache *)
Section cache.
Variable hash : list tuple_item → Z.
Variable py_set : list function → list function.

(** C2: a resolution that returned a handler has left it in the cache of
    [func] under the cache key, and resolving again with the same hierarchy
    and operation returns that same handler, leaves the store as it is and
    looks up no class; so does every later resolution.  The second
    resolution reads the entry and computes nothing again: it returns the
    handler whatever the classes of a hierarchy of the same key expose by
    then and whatever the order of sets is, and it returns whatever handler
    the entry under the key is replaced by. *)
Theorem resolve_idempotent func mro st h :
  outcome (resolve hash py_set func mro st) = inr h →
  resolve hash py_set func mro (store_after (resolve hash py_set func mro st)) =
    Resolution (inr h) (store_after (resolve hash py_set func mro st)) [] ∧
  (∀ n,
    resolve hash py_set func mro
      (resolve_times hash py_set (S n) func mro st) =
    Resolution (inr h) (store_after (resolve hash py_set func mro st)) []) ∧
  store_after (resolve hash py_set func mro st) func
    !! cache_key hash func mro = Some h ∧
  (∀ (py_set' : list function → list function) (mro' : list pyclass),
     cache_key hash func mro' = cache_key hash func mro →
     resolve hash py_set' func mro'
       (store_after (resolve hash py_set func mro st)) =
     Resolution (inr h) (store_after (resolve hash py_set func mro st)) []) ∧
  (∀ h' : function,
     outcome
       (resolve hash py_set func mro
          (<[func := <[cache_key hash func mro := h']>
                       (store_after (resolve hash py_set func mro st) func)]>
             (store_after (resolve hash py_set func mro st))))
     = inr h').
Proof.
  intros Hok.
  pose proof (resolve_inr_cached hash py_set func mro st h Hok) as Hcached.
  pose proof (resolve_hit hash py_set func mro _ h Hcached) as Hhit.
  split; [done|]. split; [|split; [done|split]].
  - intros n. simpl. rewrite resolve_times_fixed; [done|]. by rewrite Hhit.
  - intros py_set' mro' Hkey. apply resolve_hit. by rewrite Hkey.
  - intros h'. rewrite (resolve_hit hash py_set func mro _ h'); [done|].
    by rewrite fn_lookup_insert, lookup_insert_eq.
Qed.

(** C10: a resolution that raises found no cached entry and met the tie
    between the two first handlers; it leaves the store as it found it,
    still without an entry under the cache key, and every later resolution
    on the same hierarchy and operation scans the hierarchy again and
    raises the same exception. *)
Theorem resolve_tie_not_cached func mro st e :
  outcome (resolve hash py_set func mro st) = inl e →
  ambiguous (handlers py_set func mro) = Some e ∧
  store_after (resolve hash py_set func mro st) = st ∧
  st func !! cache_key hash func mro = None ∧
  ∀ n,
    resolve hash py_set func mro (resolve_times hash py_set n func mro st) =
    Resolution (inl e) st (cls_id <$> mro).
Proof.
  intros Hfail.
  destruct (resolve_inl_inv hash py_set func mro st e Hfail) as [Hmiss Hscan].
  pose proof (resolve_miss_inl hash py_set func mro st e Hmiss Hscan) as Hr.
  split.
  { unfold scan in Hscan.
    destruct (ambiguous (handlers py_set func mro)); congruence. }
  repeat split; [by rewrite Hr|done|].
  intros n. rewrite resolve_times_fixed; [done|]. by rewrite Hr.
Qed.

(** C8: two operations of distinct names have caches of their own.
    Resolving [f] leaves the cache of [g] as it is, a resolution of [g]
    gives the same result before and after it, and the resolution of [f]
    gives the same result whatever the cache of [g] holds. *)
Theorem resolve_names_independent f g mro st :
  __name__ f ≠ __name__ g →
  store_after (resolve hash py_set f mro st) g = st g ∧
  outcome (resolve hash py_set g mro (store_after (resolve hash py_set f mro st))) =
    outcome (resolve hash py_set g mro st) ∧
  scanned (resolve hash py_set g mro (store_after (resolve hash py_set f mro st))) =
    scanned (resolve hash py_set g mro st) ∧
  ∀ cache : gmap Z function,
    outcome (resolve hash py_set f mro (<[g := cache]> st)) =
      outcome (resolve hash py_set f mro st).
Proof.
  intros Hname.
  assert (g ≠ f) as Hne by (intros ->; done).
  pose proof (resolve_writes_own_cache hash py_set f mro st g Hne) as Hw.
  destruct (resolve_reads_own_cache hash py_set g mro st
              (store_after (resolve hash py_set f mro st)))
    as (Ho & Hs & _); [done|].
  repeat split; [done..|].
  intros cache.
  destruct (resolve_reads_own_cache hash py_set f mro st (<[g := cache]> st))
    as (Ho' & _); [|done].
  by rewrite fn_lookup_insert_ne.
Qed.

Variable value : Type.
Variable call :
  function → object → list value → list (string * value) → store →
  (exn + value) * store.

(** C9: a resolution that returns a handler leaves it in the cache of
    [func] under the cache key, changes no other key of that cache and no
    cache of another function; the wrapper then calls that handler on the
    instance, the positional and the keyword arguments it was given. *)
Theorem wrapper_frame func instance args kwargs st h :
  outcome (resolve hash py_set func (class_mro instance) st) = inr h →
  store_after (resolve hash py_set func (class_mro instance) st) func
    !! cache_key hash func (class_mro instance) = Some h ∧
  (∀ k, k ≠ cache_key hash func (class_mro instance) →
        store_after (resolve hash py_set func (class_mro instance) st) func !! k
        = st func !! k) ∧
  (∀ g, g ≠ func →
        store_after (resolve hash py_set func (class_mro instance) st) g = st g) ∧
  wrapper hash py_set value call func instance args kwargs st =
    call h instance args kwargs
      (store_after (resolve hash py_set func (class_mro instance) st)).
Proof.
  intros Hok. split; [by apply resolve_inr_cached|].
  split; [|split].
  - intros k Hk. by apply resolve_writes_own_key.
  - intros g Hg. by apply resolve_writes_own_cache.
  - unfold wrapper. by rewrite Hok.
Qed.
End cache.

(** ** The theorems at work on the concrete hierarchies *)
Section witnesses.
Import Scenario.

(** [View(Base, A, B)], [A] without a priority and [B] at priority 1. *)
Lemma resolve_top_tie_raises_witness :
  cache_valid' base_func (view_mro None (Some 1)) fresh ∧
  a_func None ≠ b_func (Some 1) ∧
  getattr_priority (a_func None) = getattr_priority (b_func (Some 1)) ∧
  ∃ x y,
    resolve' base_func (view_mro None (Some 1)) fresh =
      Resolution
        (inl (AttributeError
                ("Cannot find a more specific overriding method: " +:+
                 __str__ x +:+ " or " +:+ __str__ y +:+
                 ". Use the 'priority' param.")))
        fresh (cls_id <$> view_mro None (Some 1)) ∧
    x ≠ y ∧
    override_candidate base_func (view_mro None (Some 1)) x ∧
    override_candidate base_func (view_mro None (Some 1)) y ∧
    getattr_priority x = getattr_priority (a_func None) ∧
    getattr_priority y = getattr_priority (a_func None) ∧
    ((∀ c, override_candidate base_func (view_mro None (Some 1)) c →
           c ≠ a_func None → c ≠ b_func (Some 1) →
           getattr_priority c < getattr_priority (a_func None)) →
     (x = a_func None ∧ y = b_func (Some 1)) ∨
     (x = b_func (Some 1) ∧ y = a_func None)).
Proof.
  assert (cache_valid' base_func (view_mro None (Some 1)) fresh) as Hvalid.
  { intros h Hh. vm_compute in Hh. discriminate. }
  assert (a_func None ≠ b_func (Some 1)) as Hne by discriminate.
  assert (getattr_priority (a_func None) = getattr_priority (b_func (Some 1)))
    as Htie by reflexivity.
  split; [exact Hvalid|]. split; [exact Hne|]. split; [exact Htie|].
  apply (resolve_top_tie_raises toy_hash insertion_order
           insertion_order_NoDup insertion_order_elem_of
           base_func (view_mro None (Some 1)) fresh
           (a_func None) (b_func (Some 1)) Hvalid).
  - apply view_candidates. by left.
  - apply view_candidates. by right.
  - exact Hne.
  - exact Htie.
  - intros c Hc. apply view_candidates in Hc as [->| ->]; vm_compute; discriminate.
Defined.

(** Twice [View(Base, A, B)], [A] at priority 1 and [B] at priority 2; the
    second time also with the priorities exchanged on the same classes and
    with the other set order. *)
Lemma resolve_idempotent_witness :
  outcome (resolve' base_func (view_mro (Some 1) (Some 2)) fresh)
    = inr (b_func (Some 2)) ∧
  resolve' base_func (view_mro (Some 1) (Some 2))
    (store_after (resolve' base_func (view_mro (Some 1) (Some 2)) fresh)) =
    Resolution (inr (b_func (Some 2)))
      (store_after (resolve' base_func (view_mro (Some 1) (Some 2)) fresh)) [] ∧
  store_after (resolve' base_func (view_mro (Some 1) (Some 2)) fresh) base_func
    !! cache_key toy_hash base_func (view_mro (Some 1) (Some 2))
    = Some (b_func (Some 2)) ∧
  resolve toy_hash reverse base_func (view_mro (Some 2) (Some 1))
    (store_after (resolve' base_func (view_mro (Some 1) (Some 2)) fresh)) =
    Resolution (inr (b_func (Some 2)))
      (store_after (resolve' base_func (view_mro (Some 1) (Some 2)) fresh)) [].
Proof.
  assert (outcome (resolve' base_func (view_mro (Some 1) (Some 2)) fresh)
          = inr (b_func (Some 2))) as Hfirst by (vm_compute; reflexivity).
  split; [exact Hfirst|].
  destruct (resolve_idempotent toy_hash insertion_order
              base_func (view_mro (Some 1) (Some 2)) fresh
              (b_func (Some 2)) Hfirst)
    as (Hsecond & _ & Hstored & Hsame_key & _).
  split; [exact Hsecond|]. split; [exact Hstored|].
  exact (Hsame_key reverse (view_mro (Some 2) (Some 1)) eq_refl).
Defined.

(** [View(Base, A, B)], [A] at priority 5 and [B] without a priority, on the
    store a first resolution of it has left. *)
Lemma resolve_two_overrides_witness :
  cache_valid' base_func (view_mro (Some 5) None)
    (store_after (resolve' base_func (view_mro (Some 5) None) fresh)) ∧
  getattr_priority (b_func None) < getattr_priority (a_func (Some 5)) ∧
  outcome (resolve' base_func (view_mro (Some 5) None)
             (store_after (resolve' base_func (view_mro (Some 5) None) fresh)))
    = inr (a_func (Some 5)).
Proof.
  assert (cache_valid' base_func (view_mro (Some 5) None)
            (store_after (resolve' base_func (view_mro (Some 5) None) fresh)))
    as Hvalid.
  { apply cache_valid_resolve. intros h Hh. vm_compute in Hh. discriminate. }
  assert (getattr_priority (b_func None) < getattr_priority (a_func (Some 5)))
    as Hlt by (vm_compute; reflexivity).
  split; [exact Hvalid|]. split; [exact Hlt|].
  apply (proj1 (resolve_two_overrides toy_hash insertion_order
                  insertion_order_NoDup insertion_order_elem_of)
           base_func (view_mro (Some 5) None) _
           (a_func (Some 5)) (b_func None) Hvalid).
  - apply view_candidates. by left.
  - apply view_candidates. by right.
  - intros c Hc. by apply view_candidates in Hc.
  - exact Hlt.
Defined.

(** [View(Base, A)], [A] without a priority. *)
Lemma resolve_single_override_witness :
  cache_valid' base_func (view1_mro None) fresh ∧
  override_candidate base_func (view1_mro None) (a_func None) ∧
  outcome (resolve' base_func (view1_mro None) fresh) = inr (a_func None).
Proof.
  assert (cache_valid' base_func (view1_mro None) fresh) as Hvalid.
  { intros h Hh. vm_compute in Hh. discriminate. }
  assert (override_candidate base_func (view1_mro None) (a_func None)) as Hcand.
  { by apply view1_candidates. }
  split; [exact Hvalid|]. split; [exact Hcand|].
  apply (resolve_single_override toy_hash insertion_order
           insertion_order_NoDup insertion_order_elem_of
           base_func (view1_mro None) fresh (a_func None) Hvalid Hcand).
  intros g Hg. by apply view1_candidates in Hg.
Defined.

(** [View(Base)]. *)
Lemma resolve_no_override_witness :
  cache_valid' base_func plain_mro fresh ∧
  (∀ f, ¬ override_candidate base_func plain_mro f) ∧
  outcome (resolve' base_func plain_mro fresh) = inr base_func ∧
  store_after (resolve' base_func plain_mro fresh) base_func
    !! cache_key toy_hash base_func plain_mro = Some base_func.
Proof.
  assert (cache_valid' base_func plain_mro fresh) as Hvalid.
  { intros h Hh. vm_compute in Hh. discriminate. }
  split; [exact Hvalid|]. split; [exact plain_candidates|].
  exact (resolve_no_override toy_hash insertion_order insertion_order_elem_of
           base_func plain_mro fresh Hvalid plain_candidates).
Defined.

(** [View(Base, A, B, C)] at priorities 2, 3 and 2. *)
Lemma resolve_lower_tie_ignored_witness :
  cache_valid' base_func (view3_mro (Some 2) (Some 3) (Some 2)) fresh ∧
  a_func (Some 2) ≠ c_func (Some 2) ∧
  getattr_priority (a_func (Some 2)) = getattr_priority (c_func (Some 2)) ∧
  getattr_priority (a_func (Some 2)) < getattr_priority (b_func (Some 3)) ∧
  outcome (resolve' base_func (view3_mro (Some 2) (Some 3) (Some 2)) fresh)
    = inr (b_func (Some 3)).
Proof.
  assert (cache_valid' base_func (view3_mro (Some 2) (Some 3) (Some 2)) fresh)
    as Hvalid.
  { intros h Hh. vm_compute in Hh. discriminate. }
  assert (a_func (Some 2) ≠ c_func (Some 2)) as Hne by discriminate.
  split; [exact Hvalid|]. split; [exact Hne|].
  split; [reflexivity|]. split; [reflexivity|].
  apply (resolve_lower_tie_ignored toy_hash insertion_order
           insertion_order_NoDup insertion_order_elem_of
           base_func (view3_mro (Some 2) (Some 3) (Some 2)) fresh
           (b_func (Some 3)) (a_func (Some 2)) (c_func (Some 2)) Hvalid).
  - apply view3_candidates. tauto.
  - apply view3_candidates. tauto.
  - apply view3_candidates. tauto.
  - exact Hne.
  - reflexivity.
  - reflexivity.
  - intros d Hd Hdt. apply view3_candidates in Hd as [->|[->| ->]];
      [vm_compute; discriminate|done|vm_compute; discriminate].
Defined.

(** C7 as the specification states it fails: no class of the hierarchy of a
    stranger exposes the operation, neither an override nor the base, and
    resolution returns the decorated function instead of raising. *)
Lemma resolve_no_implementation_returns :
  no_implementation base_func stranger_mro ∧
  (∀ f, ¬ override_candidate base_func stranger_mro f) ∧
  resolve' base_func stranger_mro fresh =
    Resolution (inr base_func)
      (<[base_func := {[cache_key toy_hash base_func stranger_mro := base_func]}]>
         fresh)
      [13%positive; 10%positive] ∧
  ¬ ∃ e, outcome (resolve' base_func stranger_mro fresh) = inl e.
Proof.
  split; [exact stranger_no_implementation|]. split.
  { intros f (cls & Hcls & Hget & _).
    by rewrite (stranger_no_implementation cls Hcls) in Hget. }
  assert (resolve' base_func stranger_mro fresh =
    Resolution (inr base_func)
      (<[base_func := {[cache_key toy_hash base_func stranger_mro := base_func]}]>
         fresh)
      [13%positive; 10%positive]) as Hr by reflexivity.
  split; [exact Hr|]. rewrite Hr. by intros [e He].
Qed.

(** The hierarchy of a stranger. *)
Lemma resolve_no_implementation_witness :
  no_implementation base_func stranger_mro ∧
  cache_valid' base_func stranger_mro fresh ∧
  (∃ h, outcome (resolve' base_func stranger_mro fresh) = inr h) ∧
  outcome (resolve' base_func stranger_mro fresh) = inr base_func ∧
  store_after (resolve' base_func stranger_mro fresh) base_func
    !! cache_key toy_hash base_func stranger_mro = Some base_func.
Proof.
  assert (cache_valid' base_func stranger_mro fresh) as Hvalid.
  { intros h Hh. vm_compute in Hh. discriminate. }
  split; [exact stranger_no_implementation|]. split; [exact Hvalid|].
  destruct (resolve_no_implementation toy_hash insertion_order
              insertion_order_elem_of base_func stranger_mro fresh
              stranger_no_implementation) as [Hsome Hbase].
  split; [exact Hsome|]. exact (Hbase Hvalid).
Defined.

(** Two operations of [Base] on [View(Base, A, B)]. *)
Lemma resolve_names_independent_witness :
  __name__ base_func ≠ __name__ other_func ∧
  store_after (resolve' base_func (view_mro (Some 1) (Some 2)) fresh) other_func
    = fresh other_func ∧
  outcome (resolve' other_func (view_mro (Some 1) (Some 2))
             (store_after (resolve' base_func (view_mro (Some 1) (Some 2)) fresh)))
    = outcome (resolve' other_func (view_mro (Some 1) (Some 2)) fresh).
Proof.
  assert (__name__ base_func ≠ __name__ other_func) as Hname by discriminate.
  split; [exact Hname|].
  destruct (resolve_names_independent toy_hash insertion_order
              base_func other_func (view_mro (Some 1) (Some 2)) fresh Hname)
    as (Hkeep & Hsame & _).
  split; [exact Hkeep|exact Hsame].
Defined.

(** A call on an instance of [View(Base, A, B)]. *)
Lemma wrapper_frame_witness :
  outcome (resolve' base_func (class_mro (view_instance (Some 1) (Some 2))) fresh)
    = inr (b_func (Some 2)) ∧
  wrapper toy_hash insertion_order Z answer_call base_func
    (view_instance (Some 1) (Some 2)) [7] [("format", 8)] fresh =
  answer_call (b_func (Some 2)) (view_instance (Some 1) (Some 2))
    [7] [("format", 8)]
    (store_after
       (resolve' base_func (class_mro (view_instance (Some 1) (Some 2))) fresh)).
Proof.
  assert (outcome (resolve' base_func
                     (class_mro (view_instance (Some 1) (Some 2))) fresh)
          = inr (b_func (Some 2))) as Hok by (vm_compute; reflexivity).
  split; [exact Hok|].
  exact (proj2 (proj2 (proj2
    (wrapper_frame toy_hash insertion_order Z answer_call base_func
       (view_instance (Some 1) (Some 2)) [7] [("format", 8)] fresh
       (b_func (Some 2)) Hok)))).
Defined.

(** [View(Base, A, B)], both mixins at priority 2, resolved four times. *)
Lemma resolve_tie_not_cached_witness :
  outcome (resolve' base_func (view_mro (Some 2) (Some 2)) fresh) =
    inl (AttributeError
           (ambiguity_message (a_func (Some 2)) (b_func (Some 2)))) ∧
  store_after (resolve' base_func (view_mro (Some 2) (Some 2)) fresh) = fresh ∧
  resolve' base_func (view_mro (Some 2) (Some 2))
    (resolve_times toy_hash insertion_order 3 base_func
       (view_mro (Some 2) (Some 2)) fresh) =
  Resolution
    (inl (AttributeError
            (ambiguity_message (a_func (Some 2)) (b_func (Some 2)))))
    fresh (cls_id <$> view_mro (Some 2) (Some 2)).
Proof.
  assert (outcome (resolve' base_func (view_mro (Some 2) (Some 2)) fresh) =
    inl (AttributeError
           (ambiguity_message (a_func (Some 2)) (b_func (Some 2)))))
    as Hfail by (vm_compute; reflexivity).
  split; [exact Hfail|].
  destruct (resolve_tie_not_cached toy_hash insertion_order base_func
              (view_mro (Some 2) (Some 2)) fresh _ Hfail)
    as (_ & Hstore & _ & Hagain).
  split; [exact Hstore|exact (Hagain 3%nat)].
Defined.
End witnesses.

(** ** More on the scan and the cache *)
Section scan_more.
Variable py_set : list function → list function.
Hypothesis py_set_NoDup : ∀ l, NoDup (py_set l).
Hypothesis py_set_elem_of : ∀ l x, x ∈ py_set l ↔ x ∈ l.

(** What a scan returns: the decorated function when the hierarchy has no
    override candidate, and otherwise an override candidate strictly above
    all the others. *)
Lemma scan_inr_inv func mro h :
  scan py_set func mro = inr h →
  (h = func ∧ ∀ f, ¬ override_candidate func mro f) ∨
  (override_candidate func mro h ∧
   ∀ c, override_candidate func mro c → c ≠ h →
        getattr_priority c < getattr_priority h).
Proof.
  unfold scan. intros Hscan.
  destruct (ambiguous (handlers py_set func mro)) eqn:Hamb; [done|].
  injection Hscan as <-.
  pose proof (NoDup_handlers py_set py_set_NoDup func mro) as Hnd.
  pose proof (handlers_descending py_set func mro) as Hs.
  pose proof (elem_of_handlers py_set py_set_elem_of func mro) as Hin.
  destruct (handlers py_set func mro) as [|x rest] eqn:Hh; simpl.
  - left. split; [done|]. intros f Hf. apply Hin in Hf.
    by apply elem_of_nil in Hf.
  - right. split; [apply Hin; left|].
    intros c Hc Hne. apply Hin in Hc.
    apply elem_of_cons in Hc as [->|Hc]; [done|].
    destruct rest as [|y rest]; [by apply elem_of_nil in Hc|].
    pose proof (ambiguous_None _ Hamb x y rest eq_refl) as Hxy.
    pose proof (descending_head x (y :: rest) y Hs ltac:(right; left)) as Hyx.
    apply StronglySorted_inv in Hs as [Hs' _].
    pose proof (descending_head y rest c Hs' Hc). lia.
Qed.
End scan_more.

Section resolution_more.
Variable hash : list tuple_item → Z.
Variable py_set : list function → list function.
Hypothesis py_set_NoDup : ∀ l, NoDup (py_set l).
Hypothesis py_set_elem_of : ∀ l x, x ∈ py_set l ↔ x ∈ l.

(** X1: with priorities that are integers or unset, which is what
    [function] holds, the exception of lines 44-46 is raised for a tie at
    the top only.  When a resolution raises it, the cache held no entry
    under the key, and the message is the text of those lines around the
    [__str__] of two distinct override candidates of the hierarchy that
    share the priority no candidate exceeds.  (A priority that cannot be
    compared makes [sorted] raise a [TypeError], which this embedding does
    not cover.) *)
Theorem resolve_raises_only_on_tie func mro st e :
  outcome (resolve hash py_set func mro st) = inl e →
  st func !! cache_key hash func mro = None ∧
  ∃ x y,
    e = AttributeError
          ("Cannot find a more specific overriding method: " +:+
           __str__ x +:+ " or " +:+ __str__ y +:+
           ". Use the 'priority' param.") ∧
    x ≠ y ∧
    override_candidate func mro x ∧ override_candidate func mro y ∧
    getattr_priority x = getattr_priority y ∧
    ∀ c, override_candidate func mro c →
         getattr_priority c ≤ getattr_priority x.
Proof.
  intros Hfail.
  apply resolve_inl_inv in Hfail as [Hmiss Hscan]. split; [done|].
  by apply (scan_inl_inv py_set).
Qed.

(** X2: on a cache without stale entry, whatever a resolution returns is
    the decorated function, when the hierarchy has no override candidate,
    or else the one override candidate whose priority is strictly above
    that of every other candidate. *)
Theorem resolve_returns_top func mro st h :
  cache_valid hash py_set func mro st →
  outcome (resolve hash py_set func mro st) = inr h →
  (h = func ∧ ∀ f, ¬ override_candidate func mro f) ∨
  (override_candidate func mro h ∧
   ∀ c, override_candidate func mro c → c ≠ h →
        getattr_priority c < getattr_priority h).
Proof.
  intros Hvalid Hok. rewrite resolve_outcome in Hok by done.
  by apply (scan_inr_inv py_set).
Qed.
End resolution_more.

(** The handler a scan finds, and whether it raises, do not depend on the
    order in which sets yield their members. *)
Lemma scan_set_order py_set py_set' func mro :
  (∀ l, NoDup (py_set l)) → (∀ l x, x ∈ py_set l ↔ x ∈ l) →
  (∀ l, NoDup (py_set' l)) → (∀ l x, x ∈ py_set' l ↔ x ∈ l) →
  match scan py_set func mro with
  | inr h => scan py_set' func mro = inr h
  | inl _ => ∃ e', scan py_set' func mro = inl e'
  end.
Proof.
  intros Hnd Hin Hnd' Hin'.
  destruct (scan py_set func mro) as [e|h] eqn:Hscan.
  - apply (scan_inl_inv py_set Hnd Hin) in Hscan
      as (x & y & _ & Hxy & Hx & Hy & Hprio & Hmax).
    destruct (scan_top_tie py_set' Hnd' Hin' func mro x y Hx Hy Hxy Hprio Hmax)
      as (x' & y' & Hscan' & _).
    by eexists.
  - apply (scan_inr_inv py_set Hnd Hin) in Hscan as [[-> Hnone]|[Hh Htop]].
    + by apply scan_none.
    + by apply scan_top_unique.
Qed.

(** X3: the handler a first resolution returns, and whether it raises, do
    not depend on the order in which Python's sets yield their members:
    two set orders give the same handler, or both raise. *)
Theorem resolve_set_order_irrelevant hash py_set py_set' func mro st :
  (∀ l, NoDup (py_set l)) → (∀ l x, x ∈ py_set l ↔ x ∈ l) →
  (∀ l, NoDup (py_set' l)) → (∀ l x, x ∈ py_set' l ↔ x ∈ l) →
  st func !! cache_key hash func mro = None →
  (∀ h, outcome (resolve hash py_set func mro st) = inr h ↔
        outcome (resolve hash py_set' func mro st) = inr h) ∧
  ((∃ e, outcome (resolve hash py_set func mro st) = inl e) ↔
   (∃ e', outcome (resolve hash py_set' func mro st) = inl e')).
Proof.
  intros Hnd Hin Hnd' Hin' Hmiss.
  rewrite !resolve_outcome by (by apply cache_valid_miss).
  pose proof (scan_set_order py_set py_set' func mro Hnd Hin Hnd' Hin') as H1.
  pose proof (scan_set_order py_set' py_set func mro Hnd' Hin' Hnd Hin) as H2.
  destruct (scan py_set func mro) as [e|h1], (scan py_set' func mro) as [e'|h2].
  - split; [done|]. split; intros _; by eexists.
  - by destruct H1.
  - done.
  - injection H1 as ->. split; [done|]. split; intros [? ?]; done.
Qed.

Section cache_more.
Variable hash : list tuple_item → Z.
Variable py_set : list function → list function.

Lemma cache_key_same_classes func mro mro' :
  cls_id <$> mro' = cls_id <$> mro →
  cache_key hash func mro' = cache_key hash func mro.
Proof.
  intros Hids. unfold cache_key.
  by rewrite !(list_fmap_compose cls_id TClass), Hids.
Qed.

(** X4: the cache key is made of the identities of the classes and of the
    name of the operation, not of what the classes expose.  After a
    resolution that returned a handler, a hierarchy of the same classes
    resolves to that handler without a scan, whatever override candidates
    it now exposes. *)
Theorem resolve_same_classes func mro mro' st h :
  cls_id <$> mro' = cls_id <$> mro →
  outcome (resolve hash py_set func mro st) = inr h →
  resolve hash py_set func mro' (store_after (resolve hash py_set func mro st)) =
    Resolution (inr h) (store_after (resolve hash py_set func mro st)) [].
Proof.
  intros Hids Hok. apply resolve_hit.
  rewrite (cache_key_same_classes func mro mro' Hids).
  by apply resolve_inr_cached.
Qed.

Lemma resolve_keeps_entry func mro st k h :
  st func !! k = Some h →
  store_after (resolve hash py_set func mro st) func !! k = Some h.
Proof.
  intros Hk.
  destruct (decide (k = cache_key hash func mro)) as [->|Hne].
  - by rewrite (resolve_hit hash py_set func mro st h).
  - by rewrite resolve_writes_own_key.
Qed.

(** X6: no entry of a cache is ever removed or replaced.  Through any
    sequence of resolutions, on any hierarchies, an entry of the cache of
    [func] stays what it is, and the caches of the other functions stay as
    they are. *)
Theorem resolve_all_keeps_entries func table runs st :
  (∀ k h, st func !! k = Some h →
          resolve_all hash py_set func table runs st func !! k = Some h) ∧
  (∀ g, g ≠ func → resolve_all hash py_set func table runs st g = st g).
Proof.
  revert st. induction runs as [|ids runs IH]; intros st; simpl; [done|].
  destruct (IH (store_after (resolve hash py_set func (table <$> ids) st)))
    as [IHk IHg].
  split.
  - intros k h Hk. by apply IHk, resolve_keeps_entry.
  - intros g Hg. rewrite IHg by done. by apply resolve_writes_own_cache.
Qed.

(** X7: decorating a function, for the first time or again, gives it an
    empty cache: the next resolution, on any hierarchy, looks up every class
    of the hierarchy in order and returns what the scan finds, whatever the
    cache held before. *)
Theorem resolve_after_decorator func mro st :
  outcome (resolve hash py_set func mro (decorator func st)) =
    scan py_set func mro ∧
  scanned (resolve hash py_set func mro (decorator func st)) = cls_id <$> mro.
Proof.
  unfold resolve, decorator. rewrite fn_lookup_insert, lookup_empty.
  by destruct (scan py_set func mro).
Qed.

Variable value : Type.

(** X8: when the resolution raises, the wrapper raises the same exception,
    calls no handler (the outcome is the same whatever calling a function
    object does) and leaves the store as it found it. *)
Theorem wrapper_raises func instance args kwargs st e :
  outcome (resolve hash py_set func (class_mro instance) st) = inl e →
  ∀ call : function → object → list value → list (string * value) → store →
           (exn + value) * store,
    wrapper hash py_set value call func instance args kwargs st = (inl e, st).
Proof.
  intros Hfail call. unfold wrapper. rewrite Hfail.
  apply resolve_inl_inv in Hfail as [Hmiss Hscan].
  by rewrite (resolve_miss_inl hash py_set func _ st e).
Qed.
End cache_more.

Section static_program.
Variable hash : list tuple_item → Z.
Variable py_set : list function → list function.
Variable func : function.
Variable table : positive → pyclass.

Lemma valid_on_decorator hierarchies st :
  valid_on hash py_set func table hierarchies (decorator func st).
Proof. intros ids _. apply cache_valid_decorator. Qed.

Lemma valid_on_resolve hierarchies ids st :
  no_collision hash func table hierarchies →
  ids ∈ hierarchies →
  valid_on hash py_set func table hierarchies st →
  valid_on hash py_set func table hierarchies
    (store_after (resolve hash py_set func (table <$> ids) st)).
Proof.
  intros Hfree Hids Hvalid ids' Hids'.
  destruct (decide (cache_key hash func (table <$> ids')
                    = cache_key hash func (table <$> ids))) as [Heq|Hne].
  - apply Hfree in Heq as ->; [|done..]. by apply cache_valid_resolve, Hvalid.
  - intros h. rewrite resolve_writes_own_key by done. by apply Hvalid.
Qed.

Lemma valid_on_resolve_all hierarchies runs st :
  no_collision hash func table hierarchies →
  (∀ ids, ids ∈ runs → ids ∈ hierarchies) →
  valid_on hash py_set func table hierarchies st →
  valid_on hash py_set func table hierarchies
    (resolve_all hash py_set func table runs st).
Proof.
  intros Hfree. revert st.
  induction runs as [|ids runs IH]; intros st Hruns Hvalid; simpl; [done|].
  apply IH.
  - intros ids' Hids'. apply Hruns. by right.
  - apply valid_on_resolve; [done| |done]. apply Hruns. left.
Qed.

Lemma resolved_before_quiet hierarchies runs st ids h :
  no_collision hash func table hierarchies →
  (∀ r, r ∈ runs → r ∈ hierarchies) →
  ids ∈ hierarchies →
  valid_on hash py_set func table hierarchies st →
  scan py_set func (table <$> ids) = inr h →
  ids ∈ runs →
  scanned (resolve hash py_set func (table <$> ids)
             (resolve_all hash py_set func table runs st)) = [].
Proof.
  intros Hfree Hsub Hids Hst Hscan Hin. revert st Hst Hsub Hin.
  induction runs as [|ids' runs IH]; intros st Hst Hsub Hin;
    [by apply elem_of_nil in Hin|].
  simpl.
  assert (valid_on hash py_set func table hierarchies
            (store_after (resolve hash py_set func (table <$> ids') st)))
    as Hst'.
  { apply valid_on_resolve; [done| |done]. apply Hsub. left. }
  apply elem_of_cons in Hin as [<-|Hin].
  - pose proof (resolve_outcome hash py_set func (table <$> ids) st
                  (Hst ids Hids)) as Hfirst.
    rewrite Hscan in Hfirst. apply resolve_inr_cached in Hfirst.
    destruct (resolve_all_keeps_entries hash py_set func table runs
                (store_after (resolve hash py_set func (table <$> ids) st)))
      as [Hkeep _].
    by rewrite (resolve_hit hash py_set func _ _ h (Hkeep _ _ Hfirst)).
  - apply IH; [done| |done]. intros r Hr. apply Hsub. by right.
Qed.

(** X5: in a program whose classes do not change (its hierarchies are made
    of the classes of one table) and in which no two of the hierarchies it
    resolves have the same cache key, the cache never holds a stale entry:
    after the decoration and any sequence of resolutions, a resolution
    returns or raises what a scan of its hierarchy does, and it looks up no
    class when its hierarchy was resolved with success before. *)
Theorem static_program_no_stale_entry runs st ids :
  no_collision hash func table (ids :: runs) →
  outcome (resolve hash py_set func (table <$> ids)
             (resolve_all hash py_set func table runs (decorator func st)))
    = scan py_set func (table <$> ids) ∧
  ∀ h, scan py_set func (table <$> ids) = inr h → ids ∈ runs →
       scanned (resolve hash py_set func (table <$> ids)
                  (resolve_all hash py_set func table runs (decorator func st)))
       = [].
Proof.
  intros Hfree.
  assert (∀ r, r ∈ runs → r ∈ ids :: runs) as Hsub by (intros r Hr; by right).
  pose proof (valid_on_decorator (ids :: runs) st) as Hst.
  split.
  - apply resolve_outcome.
    apply (valid_on_resolve_all (ids :: runs) runs _ Hfree Hsub Hst). left.
  - intros h Hscan Hin.
    apply (resolved_before_quiet (ids :: runs) runs _ ids h Hfree Hsub);
      [left|done..].
Qed.
End static_program.

(** * [access_permissions] *)
Section access_permissions_facts.
Context {view state value : Type}.
Variable has_perm : state → view → string → bool.
Implicit Types m : callable view state value.

(** X9: a decorated method, called as rest_framework calls a handler that
    has no URL keyword argument, runs exactly when the user has the
    permission, on the same arguments; otherwise the call raises
    [PermissionDenied] and leaves the state as it is, whatever the method
    is. *)
Theorem access_permissions_gate permission m self args rest st :
  (has_perm st self permission = true →
   access_permissions view state value has_perm permission m
     self (args :: rest) [] st = m self (args :: rest) [] st) ∧
  (has_perm st self permission = false →
   ∀ m', access_permissions view state value has_perm permission m'
           self (args :: rest) [] st = (inl PermissionDenied, st)).
Proof.
  split.
  - intros Hperm. unfold access_permissions. simpl. by rewrite Hperm.
  - intros Hperm m'. unfold access_permissions. simpl. by rewrite Hperm.
Qed.

(** X10: the decorated method takes no keyword argument.  A call with a
    positional argument and a keyword argument, which is how rest_framework
    calls the handler of a route with URL keyword arguments, raises
    [TypeError] for every user, with or without the permission, and the
    method is not run; so does a call without any argument. *)
Theorem access_permissions_rejects_keywords permission m self st :
  (∀ args rest kw keywords,
     access_permissions view state value has_perm permission m
       self (args :: rest) (kw :: keywords) st = (inl TypeError, st)) ∧
  access_permissions view state value has_perm permission m self [] [] st
    = (inl TypeError, st).
Proof. split; [intros args rest kw keywords|]; reflexivity. Qed.

(** X11: two permission decorators on one method ask for both permissions,
    the outer one first: the method runs when the user has both, and the
    call raises [PermissionDenied], with the state unchanged, when one is
    missing. *)
Theorem access_permissions_stacked p q m self args rest st :
  access_permissions view state value has_perm p
    (access_permissions view state value has_perm q m)
    self (args :: rest) [] st =
  if has_perm st self p && has_perm st self q
  then m self (args :: rest) [] st
  else (inl PermissionDenied, st).
Proof.
  unfold access_permissions. simpl.
  by destruct (has_perm st self p), (has_perm st self q).
Qed.
End access_permissions_facts.

(** * [_find_lte] *)
Section find_lte_facts.
Implicit Types a l : list Z.

Lemma midpoint_bounds (lo hi : nat) :
  (lo < hi)%nat → (lo ≤ (lo + hi) / 2)%nat ∧ ((lo + hi) / 2 < hi)%nat.
Proof.
  intros Hlt. split.
  - apply Nat.div_le_lower_bound; lia.
  - apply Nat.Div0.div_lt_upper_bound; lia.
Qed.

Lemma bisect_loop_done fuel a x lo hi :
  (hi ≤ lo)%nat → bisect_loop fuel a x lo hi = Some lo.
Proof.
  intros Hge. destruct fuel; simpl;
    by destruct (Nat.ltb_spec lo hi); [lia|].
Qed.

Lemma bisect_loop_step fuel a x lo hi :
  (lo < hi)%nat →
  bisect_loop (S fuel) a x lo hi =
    match a !! ((lo + hi) / 2)%nat with
    | Some v =>
        if x <? v then bisect_loop fuel a x lo ((lo + hi) / 2)%nat
        else bisect_loop fuel a x ((lo + hi) / 2 + 1)%nat hi
    | None => None
    end.
Proof.
  intros Hlt. cbn [bisect_loop].
  by destruct (Nat.ltb_spec lo hi); [|lia].
Qed.

(** The loop ends within [hi - lo] rounds, reads inside the list and
    returns an index between [lo] and [hi]. *)
Lemma bisect_loop_total fuel a x lo hi :
  (hi - lo ≤ fuel)%nat → (lo ≤ hi)%nat → (hi ≤ length a)%nat →
  ∃ r, bisect_loop fuel a x lo hi = Some r ∧ (lo ≤ r)%nat ∧ (r ≤ hi)%nat.
Proof.
  revert lo hi. induction fuel as [|fuel IH]; intros lo hi Hfuel Hle Hlen.
  { exists lo. rewrite bisect_loop_done by lia. split; [done|lia]. }
  destruct (Nat.le_gt_cases hi lo) as [Hge|Hlt].
  { exists lo. rewrite bisect_loop_done by lia. split; [done|lia]. }
  rewrite bisect_loop_step by done.
  destruct (midpoint_bounds lo hi Hlt) as [Hmid1 Hmid2].
  destruct (lookup_lt_is_Some_2 a ((lo + hi) / 2)%nat ltac:(lia)) as [v Hv].
  rewrite Hv. destruct (x <? v).
  - destruct (IH lo ((lo + hi) / 2)%nat) as (r & Hr & ? & ?); [lia..|].
    exists r. split; [done|lia].
  - destruct (IH ((lo + hi) / 2 + 1)%nat hi) as (r & Hr & ? & ?); [lia..|].
    exists r. split; [done|lia].
Qed.

Lemma bisect_right_total a x :
  ∃ r, bisect_right a x = Some r ∧ (r ≤ length a)%nat.
Proof.
  destruct (bisect_loop_total (length a) a x 0 (length a)) as (r & Hr & _ & ?);
    [lia..|].
  by exists r.
Qed.


(** In a sorted list values grow with indices. *)
Lemma sorted_lookup_le l i j vi vj :
  StronglySorted Z.le l → l !! i = Some vi → l !! j = Some vj →
  (i ≤ j)%nat → vi ≤ vj.
Proof.
  intros Hs. revert i j. induction Hs as [|w l Hs IH Hw]; intros i j Hi Hj Hij.
  - by rewrite lookup_nil in Hi.
  - destruct i as [|i], j as [|j]; simpl in *; simplify_eq; try lia.
    + rewrite list.Forall_forall in Hw. apply Hw.
      by eapply list_elem_of_lookup_2.
    + apply (IH i j); [done..|lia].
Qed.

(** The loop splits a sorted list at the index it returns: on the left the
    values at most [x], on the right the values above [x]. *)
Lemma bisect_loop_sorted fuel a x lo hi r :
  StronglySorted Z.le a →
  (hi ≤ length a)%nat →
  (∀ i v, (i < lo)%nat → a !! i = Some v → v ≤ x) →
  (∀ i v, (hi ≤ i)%nat → a !! i = Some v → x < v) →
  bisect_loop fuel a x lo hi = Some r →
  (∀ i v, (i < r)%nat → a !! i = Some v → v ≤ x) ∧
  (∀ i v, (r ≤ i)%nat → a !! i = Some v → x < v).
Proof.
  intros Hs. revert lo hi.
  induction fuel as [|fuel IH]; intros lo hi Hlen Hleft Hright.
  { destruct (Nat.le_gt_cases hi lo) as [Hge|Hlt].
    - rewrite bisect_loop_done by done. intros [= <-]. split; [done|].
      intros i v Hi. apply Hright. lia.
    - simpl. by destruct (Nat.ltb_spec lo hi); [|lia]. }
  destruct (Nat.le_gt_cases hi lo) as [Hge|Hlt].
  { rewrite bisect_loop_done by done. intros [= <-]. split; [done|].
    intros i v Hi. apply Hright. lia. }
  rewrite bisect_loop_step by done.
  destruct (midpoint_bounds lo hi Hlt) as [Hmid1 Hmid2].
  destruct (a !! ((lo + hi) / 2)%nat) as [w|] eqn:Hw; [|done].
  destruct (Z.ltb_spec x w) as [Hxw|Hwx]; intros Hr.
  - apply (IH lo ((lo + hi) / 2)%nat); [lia|done| |done].
    intros i v Hi Hv.
    pose proof (sorted_lookup_le a _ _ _ _ Hs Hw Hv Hi). lia.
  - apply (IH ((lo + hi) / 2 + 1)%nat hi); [done| |done|done].
    intros i v Hi Hv.
    pose proof (sorted_lookup_le a i _ v w Hs Hv Hw ltac:(lia)). lia.
Qed.

(** X13: on a list sorted in ascending order, [_find_lte] returns the
    rightmost value that is at most [max_value]: it sits at the last index
    whose value is at most [max_value] and no member of the list that is at
    most [max_value] exceeds it; it returns [None] exactly when every
    member is above [max_value], the empty list included. *)
Theorem find_lte_sorted l x :
  StronglySorted Z.le l →
  match _find_lte l x with
  | Some (Some v) =>
      v ≤ x ∧
      (∃ i, l !! i = Some v ∧
            ∀ j w, l !! j = Some w → w ≤ x → (j ≤ i)%nat) ∧
      (∀ w, w ∈ l → w ≤ x → w ≤ v)
  | Some None => ∀ w, w ∈ l → x < w
  | None => False
  end.
Proof.
  intros Hs. unfold _find_lte.
  destruct (bisect_right_total l x) as (index & Hb & Hlen). rewrite Hb.
  destruct (bisect_loop_sorted (length l) l x 0 (length l) index Hs)
    as [Hleft Hright]; [lia|lia| |done|].
  { intros i v Hi Hv. apply lookup_lt_Some in Hv. lia. }
  destruct (Nat.eqb_spec index 0) as [->|Hpos].
  - intros w Hw. apply list_elem_of_lookup_1 in Hw as [i Hi].
    apply (Hright i w); [lia|done].
  - destruct (lookup_lt_is_Some_2 l (index - 1)%nat ltac:(lia)) as [v Hv].
    rewrite Hv.
    assert (∀ j w, l !! j = Some w → w ≤ x → (j ≤ index - 1)%nat) as Hlast.
    { intros j w Hj Hwx. destruct (Nat.le_gt_cases index j) as [Hge|Hlt]; [|lia].
      pose proof (Hright j w Hge Hj). lia. }
    split; [apply (Hleft (index - 1)%nat); [lia|done]|].
    split; [by exists (index - 1)%nat|].
    intros w Hw Hwx. apply list_elem_of_lookup_1 in Hw as [j Hj].
    apply (sorted_lookup_le l j (index - 1)%nat w v Hs Hj Hv).
    by eapply Hlast.
Qed.
End find_lte_facts.

(** * [update_permission_classes] *)
Section update_permission_classes_facts.
Implicit Types (self : api_view) (h : heap) (classes : list permission_class).

Lemma list_remove_filter x classes :
  filter (λ c, c ≠ x) (list_remove x classes) = filter (λ c, c ≠ x) classes.
Proof.
  induction classes as [|y classes IH]; simpl; [done|].
  destruct (decide (x = y)) as [<-|Hne].
  - by rewrite filter_cons_False by (intros Hc; by apply Hc).
  - by rewrite !filter_cons_True, IH by congruence.
Qed.

Lemma list_remove_length x classes :
  x ∈ classes → S (length (list_remove x classes)) = length classes.
Proof.
  induction classes as [|y classes IH]; simpl; intros Hin.
  - by apply elem_of_nil in Hin.
  - destruct (decide (x = y)) as [|Hne]; [done|]. simpl.
    apply elem_of_cons in Hin as [|Hin]; [done|]. by rewrite IH.
Qed.

(** X14: the removal is made in the list object itself.  When a view that
    does not require authentication has gone through
    [update_permission_classes], every view whose [permission_classes] is
    the same list object reads the list without its first
    [IsAuthenticated], also a view that requires authentication, and going
    through [update_permission_classes] itself does not bring it back; with
    the list [[IsAuthenticated]] of [GenericBaseView] it reads the empty
    list. *)
Theorem update_permission_classes_shared self other h classes :
  permission_classes other = permission_classes self →
  requires_authentication self = false →
  h !! permission_classes self = Some classes →
  IsAuthenticated ∈ classes →
  read_permission_classes other (update_permission_classes self h)
    = list_remove IsAuthenticated classes ∧
  (requires_authentication other = true →
   read_permission_classes other
     (update_permission_classes other (update_permission_classes self h))
   = list_remove IsAuthenticated classes) ∧
  (classes = [IsAuthenticated] →
   read_permission_classes other (update_permission_classes self h) = []).
Proof.
  intros Hsame Hauth Hh Hin.
  assert (update_permission_classes self h =
          <[permission_classes self := list_remove IsAuthenticated classes]> h)
    as Hupd.
  { unfold update_permission_classes. rewrite Hh, Hauth. simpl.
    by rewrite bool_decide_eq_true_2. }
  assert (read_permission_classes other (update_permission_classes self h)
          = list_remove IsAuthenticated classes) as Hread.
  { unfold read_permission_classes.
    by rewrite Hupd, Hsame, lookup_insert_eq. }
  split; [done|]. split.
  - intros Hother. rewrite <- Hread. f_equal.
    unfold update_permission_classes at 1. rewrite Hother. simpl.
    by destruct (update_permission_classes self h !! permission_classes other).
  - intros ->. by rewrite Hread.
Qed.

(** X15: [update_permission_classes] takes away one [IsAuthenticated] at
    most and nothing else.  The list of a view that requires authentication
    is left as it is; in any case the other classes of the list keep their
    places, the list loses one member or none, and the list objects at
    other addresses are not touched. *)
Theorem update_permission_classes_frame self h :
  (requires_authentication self = true →
   update_permission_classes self h = h) ∧
  filter (λ c, c ≠ IsAuthenticated)
    (read_permission_classes self (update_permission_classes self h))
  = filter (λ c, c ≠ IsAuthenticated) (read_permission_classes self h) ∧
  (length (read_permission_classes self h) ≤
   S (length (read_permission_classes self (update_permission_classes self h))))%nat ∧
  (∀ loc, loc ≠ permission_classes self →
          update_permission_classes self h !! loc = h !! loc).
Proof.
  unfold update_permission_classes, read_permission_classes.
  destruct (h !! permission_classes self) as [classes|] eqn:Hh.
  - destruct (requires_authentication self); simpl.
    + rewrite Hh. simpl. repeat split; try done. lia.
    + destruct (decide (IsAuthenticated ∈ classes)) as [Hin|Hnin].
      * rewrite bool_decide_eq_true_2 by done. rewrite lookup_insert_eq. simpl.
        repeat split; [done|apply list_remove_filter| |].
        -- rewrite <- (list_remove_length IsAuthenticated classes Hin). lia.
        -- intros loc Hloc. by rewrite lookup_insert_ne.
      * rewrite bool_decide_eq_false_2 by done. rewrite Hh. simpl.
        repeat split; try done. lia.
  - rewrite Hh. simpl. repeat split; try done. lia.
Qed.
End update_permission_classes_facts.

(** * The theorems above on sample data *)
Section more_witnesses.
Import Scenario Samples.

Lemma reversed_order_NoDup l : NoDup (reversed_order l).
Proof.
  unfold reversed_order. rewrite reverse_Permutation.
  apply NoDup_remove_dups.
Qed.

Lemma reversed_order_elem_of l x : x ∈ reversed_order l ↔ x ∈ l.
Proof.
  unfold reversed_order. by rewrite elem_of_reverse, elem_of_remove_dups.
Qed.

(** [View(Base, A, B)], both mixins at priority 2. *)
Lemma resolve_raises_only_on_tie_witness :
  outcome (resolve' base_func (view_mro (Some 2) (Some 2)) fresh) =
    inl (AttributeError
           (ambiguity_message (a_func (Some 2)) (b_func (Some 2)))) ∧
  fresh base_func !! cache_key toy_hash base_func (view_mro (Some 2) (Some 2))
    = None ∧
  ∃ x y,
    AttributeError (ambiguity_message (a_func (Some 2)) (b_func (Some 2)))
      = AttributeError
          ("Cannot find a more specific overriding method: " +:+
           __str__ x +:+ " or " +:+ __str__ y +:+
           ". Use the 'priority' param.") ∧
    x ≠ y ∧
    override_candidate base_func (view_mro (Some 2) (Some 2)) x ∧
    override_candidate base_func (view_mro (Some 2) (Some 2)) y ∧
    getattr_priority x = getattr_priority y ∧
    ∀ c, override_candidate base_func (view_mro (Some 2) (Some 2)) c →
         getattr_priority c ≤ getattr_priority x.
Proof.
  assert (outcome (resolve' base_func (view_mro (Some 2) (Some 2)) fresh) =
    inl (AttributeError
           (ambiguity_message (a_func (Some 2)) (b_func (Some 2)))))
    as Hfail by (vm_compute; reflexivity).
  split; [exact Hfail|].
  exact (resolve_raises_only_on_tie toy_hash insertion_order
           insertion_order_NoDup insertion_order_elem_of
           base_func (view_mro (Some 2) (Some 2)) fresh _ Hfail).
Defined.

(** [View(Base, A, B, C)] at priorities 2, 3 and 2. *)
Lemma resolve_returns_top_witness :
  cache_valid' base_func (view3_mro (Some 2) (Some 3) (Some 2)) fresh ∧
  outcome (resolve' base_func (view3_mro (Some 2) (Some 3) (Some 2)) fresh)
    = inr (b_func (Some 3)) ∧
  ((b_func (Some 3) = base_func ∧
    ∀ f, ¬ override_candidate base_func
             (view3_mro (Some 2) (Some 3) (Some 2)) f) ∨
   (override_candidate base_func (view3_mro (Some 2) (Some 3) (Some 2))
      (b_func (Some 3)) ∧
    ∀ c, override_candidate base_func
           (view3_mro (Some 2) (Some 3) (Some 2)) c →
         c ≠ b_func (Some 3) →
         getattr_priority c < getattr_priority (b_func (Some 3)))).
Proof.
  assert (cache_valid' base_func (view3_mro (Some 2) (Some 3) (Some 2)) fresh)
    as Hvalid.
  { intros h Hh. vm_compute in Hh. discriminate. }
  assert (outcome (resolve' base_func
                     (view3_mro (Some 2) (Some 3) (Some 2)) fresh)
          = inr (b_func (Some 3))) as Hok by (vm_compute; reflexivity).
  split; [exact Hvalid|]. split; [exact Hok|].
  exact (resolve_returns_top toy_hash insertion_order
           insertion_order_NoDup insertion_order_elem_of
           base_func (view3_mro (Some 2) (Some 3) (Some 2)) fresh _
           Hvalid Hok).
Defined.

(** Two set orders on [View(Base, A, B, C)] at priorities 2, 3 and 2. *)
Lemma resolve_set_order_irrelevant_witness :
  fresh base_func
    !! cache_key toy_hash base_func (view3_mro (Some 2) (Some 3) (Some 2))
    = None ∧
  (outcome (resolve toy_hash insertion_order base_func
              (view3_mro (Some 2) (Some 3) (Some 2)) fresh)
     = inr (b_func (Some 3)) ↔
   outcome (resolve toy_hash reversed_order base_func
              (view3_mro (Some 2) (Some 3) (Some 2)) fresh)
     = inr (b_func (Some 3))).
Proof.
  assert (fresh base_func
    !! cache_key toy_hash base_func (view3_mro (Some 2) (Some 3) (Some 2))
    = None) as Hmiss by reflexivity.
  split; [exact Hmiss|].
  exact (proj1 (resolve_set_order_irrelevant toy_hash
                  insertion_order reversed_order
                  base_func (view3_mro (Some 2) (Some 3) (Some 2)) fresh
                  insertion_order_NoDup insertion_order_elem_of
                  reversed_order_NoDup reversed_order_elem_of Hmiss)
           (b_func (Some 3))).
Defined.

(** [View(Base, A, B)], then the same classes with the priorities of [A]
    and [B] exchanged. *)
Lemma resolve_same_classes_witness :
  cls_id <$> view_mro (Some 2) (Some 1) = cls_id <$> view_mro (Some 1) (Some 2) ∧
  outcome (resolve' base_func (view_mro (Some 1) (Some 2)) fresh)
    = inr (b_func (Some 2)) ∧
  resolve' base_func (view_mro (Some 2) (Some 1))
    (store_after (resolve' base_func (view_mro (Some 1) (Some 2)) fresh)) =
  Resolution (inr (b_func (Some 2)))
    (store_after (resolve' base_func (view_mro (Some 1) (Some 2)) fresh)) [].
Proof.
  assert (cls_id <$> view_mro (Some 2) (Some 1)
          = cls_id <$> view_mro (Some 1) (Some 2)) as Hids by reflexivity.
  assert (outcome (resolve' base_func (view_mro (Some 1) (Some 2)) fresh)
          = inr (b_func (Some 2))) as Hok by (vm_compute; reflexivity).
  split; [exact Hids|]. split; [exact Hok|].
  exact (resolve_same_classes toy_hash insertion_order base_func
           (view_mro (Some 1) (Some 2)) (view_mro (Some 2) (Some 1)) fresh
           (b_func (Some 2)) Hids Hok).
Defined.

(** The classes of the table with a hash of 64 bits. *)
Lemma static_program_no_stale_entry_witness :
  no_collision hash64 base_func class_table
    ([12; 11; 3; 4; 10]%positive :: sample_runs) ∧
  outcome (resolve hash64 insertion_order base_func
             (class_table <$> [12; 11; 3; 4; 10]%positive)
             (resolve_all hash64 insertion_order base_func class_table
                sample_runs (decorator base_func fresh)))
    = inr (b_func (Some 2)) ∧
  scanned (resolve hash64 insertion_order base_func
             (class_table <$> [12; 11; 3; 4; 10]%positive)
             (resolve_all hash64 insertion_order base_func class_table
                sample_runs (decorator base_func fresh)))
    = [].
Proof.
  assert (no_collision hash64 base_func class_table
            ([12; 11; 3; 4; 10]%positive :: sample_runs)) as Hfree.
  { intros ids1 ids2 H1 H2 Hkey. unfold sample_runs in H1, H2.
    repeat (apply elem_of_cons in H1 as [->|H1]);
      [..|by apply elem_of_nil in H1];
      repeat (apply elem_of_cons in H2 as [->|H2]);
      try (by apply elem_of_nil in H2);
      try reflexivity; vm_compute in Hkey; discriminate. }
  assert (scan insertion_order base_func
            (class_table <$> [12; 11; 3; 4; 10]%positive)
          = inr (b_func (Some 2))) as Hscan by (vm_compute; reflexivity).
  split; [exact Hfree|].
  destruct (static_program_no_stale_entry hash64 insertion_order base_func
              class_table sample_runs fresh [12; 11; 3; 4; 10]%positive Hfree)
    as [Hout Hquiet].
  split; [by rewrite Hout|].
  apply (Hquiet _ Hscan). unfold sample_runs. right. left.
Defined.

(** A call on an instance of [View(Base, A, B)], both mixins at priority
    2. *)
Lemma wrapper_raises_witness :
  outcome (resolve' base_func (class_mro (view_instance (Some 2) (Some 2))) fresh)
    = inl (AttributeError
             (ambiguity_message (a_func (Some 2)) (b_func (Some 2)))) ∧
  wrapper toy_hash insertion_order Z answer_call base_func
    (view_instance (Some 2) (Some 2)) [7] [] fresh
  = (inl (AttributeError
            (ambiguity_message (a_func (Some 2)) (b_func (Some 2)))), fresh).
Proof.
  assert (outcome (resolve' base_func
                     (class_mro (view_instance (Some 2) (Some 2))) fresh)
    = inl (AttributeError
             (ambiguity_message (a_func (Some 2)) (b_func (Some 2)))))
    as Hfail by (vm_compute; reflexivity).
  split; [exact Hfail|].
  exact (wrapper_raises toy_hash insertion_order Z base_func
           (view_instance (Some 2) (Some 2)) [7] [] fresh _ Hfail answer_call).
Defined.

(** The list [1, 3, 3, 7] and the bound 5. *)
Lemma find_lte_sorted_witness :
  StronglySorted Z.le [1; 3; 3; 7] ∧
  _find_lte [1; 3; 3; 7] 5 = Some (Some 3) ∧
  3 ≤ 5 ∧
  (∃ i, [1; 3; 3; 7] !! i = Some 3 ∧
        ∀ j w, [1; 3; 3; 7] !! j = Some w → w ≤ 5 → (j ≤ i)%nat) ∧
  (∀ w, w ∈ [1; 3; 3; 7] → w ≤ 5 → w ≤ 3).
Proof.
  assert (StronglySorted Z.le [1; 3; 3; 7]) as Hs.
  { repeat constructor; lia. }
  split; [exact Hs|]. split; [reflexivity|].
  exact (find_lte_sorted [1; 3; 3; 7] 5 Hs).
Defined.

(** The view of a password reset request and a view that requires
    authentication, on the list of [GenericBaseView]. *)
Lemma update_permission_classes_shared_witness :
  permission_classes closed_view = permission_classes open_view ∧
  requires_authentication open_view = false ∧
  class_lists !! permission_classes open_view = Some [IsAuthenticated] ∧
  read_permission_classes closed_view class_lists = [IsAuthenticated] ∧
  read_permission_classes closed_view
    (update_permission_classes open_view class_lists) = [].
Proof.
  assert (class_lists !! permission_classes open_view = Some [IsAuthenticated])
    as Hh by reflexivity.
  split; [reflexivity|]. split; [reflexivity|]. split; [exact Hh|].
  split; [reflexivity|].
  refine (proj2 (proj2 (update_permission_classes_shared open_view closed_view
                          class_lists [IsAuthenticated]
                          eq_refl eq_refl Hh _)) eq_refl).
  left.
Defined.
End more_witnesses.

(** * [get_handler] *)
Section get_handler_facts.
Variable lower : string → string.
Variable get_handler_candidates :
  base_view → (view_exn + list handler) * base_view.

Lemma get_handler_inr_kept self h self' :
  get_handler lower get_handler_candidates self = (inr h, self') →
  _handler self' = Some h.
Proof.
  unfold get_handler.
  destruct (_handler self) as [h0|] eqn:Hh; [by intros [= <- <-]|].
  destruct (get_handler_candidates self) as [[e|candidates] self1]; [done|].
  destruct (request self1) as [m|]; [|done].
  destruct (next_endpoint_handler lower (lower m) candidates); [done|].
  by intros [= <- <-].
Qed.

(** X16: a handler, once picked, is kept.  After [get_handler] has
    returned a handler, it returns the same one and leaves the view as it
    is, whatever request is assigned to the view and whatever candidates
    the view would find by then, until [invalidate_cache]. *)
Theorem get_handler_kept self h self' :
  get_handler lower get_handler_candidates self = (inr h, self') →
  ∀ r candidates',
    get_handler lower candidates' (set_request r self')
    = (inr h, set_request r self').
Proof.
  intros Hget r candidates'. apply get_handler_inr_kept in Hget.
  unfold get_handler, set_request. simpl. by rewrite Hget.
Qed.

(** X17: [invalidate_cache] drops the request together with the handler:
    as long as no request is assigned, [get_handler] returns no handler and
    raises, whatever the view and its candidates are (the candidates being
    found without a request being assigned). *)
Theorem get_handler_after_invalidate_cache self :
  (∀ s candidates s',
     get_handler_candidates s = (inr candidates, s') →
     request s' = request s) →
  ∃ e self',
    get_handler lower get_handler_candidates (invalidate_cache self)
    = (inl e, self').
Proof.
  intros Hkeep. unfold get_handler. simpl.
  destruct (get_handler_candidates (invalidate_cache self))
    as [[e|candidates] self1] eqn:Hc; [by eexists _, _|].
  apply Hkeep in Hc. simpl in Hc. rewrite Hc. by eexists _, _.
Qed.

Lemma next_endpoint_handler_Some wanted candidates h :
  next_endpoint_handler lower wanted candidates = inr (Some h) →
  h ∈ candidates ∧ endpoint_handler h = true ∧
  lower <$> method h = Some wanted.
Proof.
  induction candidates as [|func rest IH]; simpl; [done|].
  destruct (endpoint_handler func) eqn:He.
  - destruct (method func) as [m|] eqn:Hm; [|done].
    destruct (decide (lower m = wanted)) as [<-|Hne].
    + intros [= <-]. rewrite Hm. repeat split; [left|done].
    + intros Hn. destruct (IH Hn) as (? & ? & ?). repeat split; [by right|done..].
  - intros Hn. destruct (IH Hn) as (? & ? & ?). repeat split; [by right|done..].
Qed.

Lemma next_endpoint_handler_None wanted candidates :
  next_endpoint_handler lower wanted candidates = inr None →
  ∀ c, c ∈ candidates → endpoint_handler c = true →
       lower <$> method c ≠ Some wanted.
Proof.
  induction candidates as [|func rest IH]; simpl; intros Hn c Hc He.
  - by apply elem_of_nil in Hc.
  - apply elem_of_cons in Hc as [->|Hc].
    + rewrite He in Hn. destruct (method func) as [m|]; [|done].
      destruct (decide (lower m = wanted)); [done|]. simpl. congruence.
    + destruct (endpoint_handler func).
      * destruct (method func) as [m|]; [|done].
        destruct (decide (lower m = wanted)); [done|]. by apply IH.
      * by apply IH.
Qed.

(** X18: an endpoint handler goes before the plain method.  When
    [get_handler] picks a handler for a request, it is a candidate marked
    [endpoint_handler] whose method is the method of the request, letter
    case apart; only when no candidate is of that kind is it the attribute
    of the view named after the lowered method, or
    [http_method_not_allowed] when the view has no such attribute. *)
Theorem get_handler_choice self candidates self1 m h self' :
  _handler self = None →
  get_handler_candidates self = (inr candidates, self1) →
  request self1 = Some m →
  get_handler lower get_handler_candidates self = (inr h, self') →
  (h ∈ candidates ∧ endpoint_handler h = true ∧
   lower <$> method h = Some (lower m)) ∨
  ((∀ c, c ∈ candidates → endpoint_handler c = true →
         lower <$> method c ≠ Some (lower m)) ∧
   h = default (http_method_not_allowed self1) (view_attrs self1 !! lower m)).
Proof.
  intros Hnone Hc Hm. unfold get_handler. rewrite Hnone, Hc, Hm.
  destruct (next_endpoint_handler lower (lower m) candidates)
    as [e|[found|]] eqn:Hn; [done|..]; simpl; intros [= <- <-].
  - left. by apply next_endpoint_handler_Some.
  - right. split; [|done]. by apply next_endpoint_handler_None.
Qed.
End get_handler_facts.

(** * [get_object] and [get_object_without_checking_permissions] *)
Section get_object_facts.
Context {queryset obj value : Type}.
Variable get_object_or_404 : queryset → string → value → view_exn + obj.
Variable filter_first : queryset → string → value → option obj.
Variable check_object_permissions : obj → option view_exn.
Implicit Types self : lookup_view queryset value.

(** X19: with [lookup_url_kwarg] left unset, as [GenericBaseView] declares
    it, or empty, [get_object_without_checking_permissions] looks nothing
    up: it returns [None] whatever the URL keywords and the queryset hold,
    also when asked to raise a 404; [get_object] in the same configuration
    takes the URL keyword named by [lookup_field], and raises
    [AssertionError] when the URL has no such keyword. *)
Theorem get_object_without_checking_permissions_unset self :
  truthy (lookup_url_kwarg self) = false →
  (∀ raise_404_on_not_found,
     get_object_without_checking_permissions queryset obj value
       get_object_or_404 filter_first self raise_404_on_not_found
     = inr None) ∧
  url_kwarg_name self = lookup_field self ∧
  (kwargs self !! lookup_field self = None →
   get_object queryset obj value get_object_or_404 check_object_permissions
     self = inl AssertionError).
Proof.
  intros Hunset.
  assert (url_kwarg_name self = lookup_field self) as Hname.
  { unfold url_kwarg_name. destruct (lookup_url_kwarg self); [|done].
    by rewrite Hunset. }
  split; [|split; [done|]].
  - intros flag. unfold get_object_without_checking_permissions.
    by rewrite Hunset.
  - intros Hk. unfold get_object. by rewrite Hname, Hk.
Qed.

(** X20: with [lookup_url_kwarg] set, the two functions look the same
    object up.  What [get_object] returns,
    [get_object_without_checking_permissions] returns when asked to raise a
    404, and what the latter raises, [get_object] raises; the latter raises
    nothing that comes from the permission check. *)
Theorem get_object_agree self :
  truthy (lookup_url_kwarg self) = true →
  (∀ o,
     get_object queryset obj value get_object_or_404 check_object_permissions
       self = inr o →
     get_object_without_checking_permissions queryset obj value
       get_object_or_404 filter_first self true = inr (Some o)) ∧
  (∀ e,
     get_object_without_checking_permissions queryset obj value
       get_object_or_404 filter_first self true = inl e →
     get_object queryset obj value get_object_or_404 check_object_permissions
       self = inl e) ∧
  (∀ o,
     get_object_without_checking_permissions queryset obj value
       get_object_or_404 filter_first self true = inr (Some o) →
     get_object queryset obj value get_object_or_404 check_object_permissions
       self = match check_object_permissions o with
              | Some e => inl e
              | None => inr o
              end).
Proof.
  intros Hset. unfold get_object, get_object_without_checking_permissions.
  rewrite Hset. simpl.
  destruct (kwargs self !! url_kwarg_name self) as [v|];
    [|split; [|split]; intros; congruence].
  destruct (get_object_or_404 (filtered self) (lookup_field self) v) as [e|o];
    [split; [|split]; intros; congruence|].
  split; [|split].
  - intros o'. by destruct (check_object_permissions o); intros [= <-].
  - intros e He. congruence.
  - by intros o' [= <-].
Qed.
End get_object_facts.

(** * The theorems on the views at work *)
Section view_witnesses.
Import Samples.

(** A GET request, then a POST request assigned to the same view. *)
Lemma get_handler_kept_witness :
  get_handler id sample_candidates sample_view
    = (inr endpoint_get,
       BaseView (Some endpoint_get) (Some "get") (view_attrs sample_view)
         not_allowed) ∧
  get_handler id sample_candidates
    (set_request (Some "post")
       (BaseView (Some endpoint_get) (Some "get") (view_attrs sample_view)
          not_allowed))
  = (inr endpoint_get,
     set_request (Some "post")
       (BaseView (Some endpoint_get) (Some "get") (view_attrs sample_view)
          not_allowed)).
Proof.
  assert (get_handler id sample_candidates sample_view
    = (inr endpoint_get,
       BaseView (Some endpoint_get) (Some "get") (view_attrs sample_view)
         not_allowed)) as Hget by reflexivity.
  split; [exact Hget|].
  exact (get_handler_kept id sample_candidates sample_view endpoint_get _ Hget
           (Some "post") sample_candidates).
Defined.

Lemma get_handler_after_invalidate_cache_witness :
  (∀ s candidates s',
     sample_candidates s = (inr candidates, s') → request s' = request s) ∧
  ∃ e self',
    get_handler id sample_candidates (invalidate_cache sample_view)
    = (inl e, self').
Proof.
  assert (∀ s candidates s',
     sample_candidates s = (inr candidates, s') → request s' = request s)
    as Hkeep.
  { intros s candidates s' [= _ <-]. reflexivity. }
  split; [exact Hkeep|].
  exact (get_handler_after_invalidate_cache id sample_candidates sample_view
           Hkeep).
Defined.

Lemma get_handler_choice_witness :
  _handler sample_view = None ∧
  request sample_view = Some "get" ∧
  get_handler id sample_candidates sample_view
    = (inr endpoint_get,
       BaseView (Some endpoint_get) (Some "get") (view_attrs sample_view)
         not_allowed) ∧
  ((endpoint_get ∈ [plain_get; endpoint_get] ∧
    endpoint_handler endpoint_get = true ∧
    id <$> method endpoint_get = Some (id "get")) ∨
   ((∀ c, c ∈ [plain_get; endpoint_get] → endpoint_handler c = true →
          id <$> method c ≠ Some (id "get")) ∧
    endpoint_get =
      default (http_method_not_allowed sample_view)
        (view_attrs sample_view !! id "get"))).
Proof.
  split; [reflexivity|]. split; [reflexivity|]. split; [reflexivity|].
  exact (get_handler_choice id sample_candidates sample_view
           [plain_get; endpoint_get] sample_view "get" endpoint_get _
           eq_refl eq_refl eq_refl eq_refl).
Defined.

(** The default configuration on a route with the keyword [pk]. *)
Lemma get_object_without_checking_permissions_unset_witness :
  truthy (lookup_url_kwarg default_lookup) = false ∧
  get_object_without_checking_permissions (list Z) Z Z
    pk_get_object_or_404 pk_filter_first default_lookup true = inr None ∧
  get_object (list Z) Z Z pk_get_object_or_404 allow_all default_lookup
    = inr 7.
Proof.
  split; [reflexivity|]. split; [|reflexivity].
  exact (proj1 (get_object_without_checking_permissions_unset
                  pk_get_object_or_404 pk_filter_first allow_all
                  default_lookup eq_refl) true).
Defined.

(** A view that names its URL keyword. *)
Lemma get_object_agree_witness :
  truthy (lookup_url_kwarg named_lookup) = true ∧
  get_object (list Z) Z Z pk_get_object_or_404 allow_all named_lookup = inr 7 ∧
  get_object_without_checking_permissions (list Z) Z Z
    pk_get_object_or_404 pk_filter_first named_lookup true = inr (Some 7).
Proof.
  assert (get_object (list Z) Z Z pk_get_object_or_404 allow_all named_lookup
          = inr 7) as Hget by reflexivity.
  split; [reflexivity|]. split; [exact Hget|].
  exact (proj1 (get_object_agree pk_get_object_or_404 pk_filter_first
                  allow_all named_lookup eq_refl) 7 Hget).
Defined.
End view_witnesses.

(** * The password reset *)
Section password_reset_facts.
Variable make_password : string → string.
Variable forgot_password : list string → string → option reset_exn.

Lemma objects_get_inr {A : Type} (matching : list A) (row : A) :
  objects_get matching = inr row ↔ matching = [row].
Proof.
  destruct matching as [|x [|y rest]]; simpl; split; intros H;
    by simplify_eq.
Qed.

Lemma filter_token_absent (value : string) (rows : list token_row) :
  value ∉ token <$> rows → filter (λ r, token r = value) rows = [].
Proof.
  induction rows as [|r rows IH]; simpl; intros Hnin; [done|].
  apply not_elem_of_cons in Hnin as [Hne Hnin].
  rewrite filter_cons_False by congruence. by apply IH.
Qed.

Lemma filter_comm {A : Type} (P Q : A → Prop)
    `{∀ x, Decision (P x)} `{∀ x, Decision (Q x)} (l : list A) :
  filter P (filter Q l) = filter Q (filter P l).
Proof.
  induction l as [|x l IH]; [done|].
  destruct (decide (P x)) as [HP|HP], (decide (Q x)) as [HQ|HQ];
    repeat (first [rewrite filter_cons_True by done
                  |rewrite filter_cons_False by done]);
    by rewrite IH.
Qed.

(** Once the row found under a token is deleted, no row is found under that
    token. *)
Lemma filter_token_deleted (value : string) (t : token_row) (db : database) :
  filter (λ r, token r = value) (tokens db) = [t] →
  filter (λ r, token r = value) (tokens (delete_token t db)) = [].
Proof.
  intros Hfound. simpl. rewrite filter_comm, Hfound.
  by rewrite filter_cons_False by (intros Hc; by apply Hc).
Qed.

Lemma validate_token_absent now value db :
  filter (λ r, token r = value) (tokens db) = [] →
  validate_token now value db
  = (inl (ValidationError "PasswordResetToken does not exist."), db).
Proof. intros Hnone. unfold validate_token. by rewrite Hnone. Qed.

(** X21: an expired token is deleted when it is presented.
    [validate_token] raises "Token is expired" and removes the row, so the
    same token presented again, at any time, is answered
    "PasswordResetToken does not exist."; the users and the rows of other
    primary keys are left as they are. *)
Theorem validate_token_expired now value db t :
  filter (λ r, token r = value) (tokens db) = [t] →
  is_expired now t = true →
  validate_token now value db
    = (inl (ValidationError "Token is expired"), delete_token t db) ∧
  (∀ now',
     validate_token now' value (delete_token t db)
     = (inl (ValidationError "PasswordResetToken does not exist."),
        delete_token t db)) ∧
  users (delete_token t db) = users db ∧
  (∀ r, r ∈ tokens db → token_pk r ≠ token_pk t →
        r ∈ tokens (delete_token t db)).
Proof.
  intros Hfound Hexp. split; [|split; [|split]].
  - unfold validate_token. rewrite Hfound. simpl. by rewrite Hexp.
  - intros now'. by apply validate_token_absent, filter_token_deleted.
  - done.
  - intros r Hr Hpk. simpl. by apply list_elem_of_filter.
Qed.

Lemma validate_token_inr now value db t db' :
  validate_token now value db = (inr t, db') →
  db' = db ∧ filter (λ r, token r = value) (tokens db) = [t] ∧
  is_expired now t = false.
Proof.
  unfold validate_token.
  destruct (objects_get (filter (λ r, token r = value) (tokens db)))
    as [e|t'] eqn:Hget.
  - by destruct e.
  - apply objects_get_inr in Hget.
    destruct (is_expired now t') eqn:Hexp; [done|].
    by intros [= <- <-].
Qed.

(** X22: a token serves once.  When [validate_token] accepts a token it
    changes nothing, and once [create] has reset the password with it, the
    user of the token has the new password, made by [make_password], and
    the same token presented again is answered "PasswordResetToken does not
    exist.". *)
Theorem reset_create_consumes_token now value new_password db t db1 u db2 :
  validate_token now value db = (inr t, db1) →
  reset_create make_password new_password t db1 = (inr u, db2) →
  db1 = db ∧
  password u = make_password new_password ∧
  (∀ row, row ∈ users db2 → user_pk row = token_user t →
          password row = make_password new_password) ∧
  (∀ now',
     validate_token now' value db2
     = (inl (ValidationError "PasswordResetToken does not exist."), db2)).
Proof.
  intros Hvalid Hcreate.
  apply validate_token_inr in Hvalid as (-> & Hfound & _).
  unfold reset_create in Hcreate.
  destruct (objects_get (filter (λ u, user_pk u = token_user t) (users db)))
    as [e|user] eqn:Hget; [done|].
  apply objects_get_inr in Hget.
  injection Hcreate as <- <-.
  assert (user_pk user = token_user t) as Hpk.
  { assert (user ∈ filter (λ u, user_pk u = token_user t) (users db)) as Hin
      by (rewrite Hget; left).
    by apply list_elem_of_filter in Hin as [? _]. }
  split; [done|]. split; [done|]. split.
  - intros row Hrow Hrowpk. simpl in Hrow.
    apply list_elem_of_fmap in Hrow as (u0 & -> & Hu0).
    simpl in *. destruct (decide (user_pk u0 = user_pk user)); [done|].
    congruence.
  - intros now'. apply validate_token_absent.
    by apply (filter_token_deleted value t
                (save_user _ db)).
Qed.

Lemma request_reset_200 now random email_field db db' :
  request_reset forgot_password now random email_field db = (Response 200, db') →
  ∃ address user,
    email_field = Some address ∧
    filter (λ u, email u = address) (users db) = [user] ∧
    (random ∉ token <$> tokens (delete_tokens_of user db)) ∧
    db' = Database (users db)
            (tokens (delete_tokens_of user db)
               ++ [TokenRow (next_pk db) (user_pk user) random now])
            (Pos.succ (next_pk db)).
Proof.
  unfold request_reset. destruct email_field as [address|]; [|done].
  destruct (objects_get (filter (λ u, email u = address) (users db)))
    as [e|user] eqn:Hget; [by destruct e|].
  apply objects_get_inr in Hget. unfold create_token.
  destruct (decide (random ∈ token <$> tokens (delete_tokens_of user db)))
    as [|Hfresh]; [done|].
  destruct (forgot_password [email user] _); [done|].
  intros [= <-]. by exists address, user.
Qed.

(** X23: a request for a reset that is answered 200 leaves the user with
    one token, the new one, made of the random string at the time of the
    request: the tokens the user had are gone, the tokens of the other
    users and the users themselves are left as they are. *)
Theorem request_reset_one_token now random email_field db db' :
  request_reset forgot_password now random email_field db = (Response 200, db') →
  ∃ address user,
    email_field = Some address ∧
    filter (λ u, email u = address) (users db) = [user] ∧
    users db' = users db ∧
    filter (λ r, token_user r = user_pk user) (tokens db')
      = [TokenRow (next_pk db) (user_pk user) random now] ∧
    filter (λ r, token_user r ≠ user_pk user) (tokens db')
      = filter (λ r, token_user r ≠ user_pk user) (tokens db).
Proof.
  clear make_password. intros Hok.
  apply request_reset_200 in Hok as (address & user & -> & Huser & _ & ->).
  exists address, user. split; [done|]. split; [done|]. split; [done|].
  simpl. rewrite !list.filter_app.
  rewrite filter_cons_True, filter_nil by done.
  rewrite (filter_cons_False (λ r, token_user r ≠ user_pk user))
    by (intros Hc; by apply Hc).
  rewrite filter_nil, app_nil_r. split.
  - rewrite list_filter_filter.
    assert (filter (λ r, token_user r = user_pk user
                         ∧ token_user r ≠ user_pk user) (tokens db) = [])
      as ->; [|done].
    induction (tokens db) as [|r rows IH]; [done|].
    by rewrite filter_cons_False by (intros [? ?]; done).
  - rewrite list_filter_filter. apply list_filter_iff. tauto.
Qed.

(** X24: a request for a reset that is refused writes nothing.  It is
    answered 400 exactly when the request carries no email, and 404 exactly
    when no user has the email it carries; in both cases the database is
    left as it was. *)
Theorem request_reset_refused now random email_field db :
  (email_field = None ↔
   request_reset forgot_password now random email_field db = (Response 400, db)) ∧
  (∀ address, email_field = Some address →
     (filter (λ u, email u = address) (users db) = [] ↔
      request_reset forgot_password now random email_field db
        = (Response 404, db))) ∧
  (∀ status db',
     request_reset forgot_password now random email_field db
       = (Response status, db') →
     status ≠ 200 → db' = db).
Proof.
  unfold request_reset. split; [|split].
  - destruct email_field as [address|]; [|done]. split; [done|].
    destruct (objects_get (filter (λ u, email u = address) (users db)))
      as [[]|user]; try done.
    destruct (create_token now random user (delete_tokens_of user db))
      as [e|[t db1]]; [done|].
    by destruct (forgot_password [email user] (token t)).
  - intros address ->.
    destruct (filter (λ u, email u = address) (users db))
      as [|user [|user' rest]] eqn:Hf; simpl; [done| |done].
    split; [done|].
    destruct (create_token now random user (delete_tokens_of user db))
      as [e|[t db1]]; [done|].
    by destruct (forgot_password [email user] (token t)).
  - intros status db'. destruct email_field as [address|]; [|by intros [= <- <-]].
    destruct (objects_get (filter (λ u, email u = address) (users db)))
      as [[]|user]; try done; [by intros [= <- <-]|].
    destruct (create_token now random user (delete_tokens_of user db))
      as [e|[t db1]]; [done|].
    destruct (forgot_password [email user] (token t)); [done|].
    by intros [= <- <-].
Qed.

(** X25: the token of a reset request lives 48 hours.  After a request
    answered 200 at the time [now], [validate_token] accepts the token and
    changes nothing at every time up to 48 hours later, that moment
    included, and from the next microsecond on it raises "Token is expired"
    and deletes the row. *)
Theorem reset_token_lifetime now random email_field db db' now' :
  request_reset forgot_password now random email_field db = (Response 200, db') →
  ∃ t,
    token t = random ∧ created_at t = now ∧ t ∈ tokens db' ∧
    (now' - now ≤ hours_48 → validate_token now' random db' = (inr t, db')) ∧
    (hours_48 < now' - now →
     validate_token now' random db'
     = (inl (ValidationError "Token is expired"), delete_token t db')).
Proof.
  intros Hok.
  apply request_reset_200 in Hok as (address & user & -> & Huser & Hfresh & ->).
  exists (TokenRow (next_pk db) (user_pk user) random now).
  assert (filter (λ r, token r = random)
            (tokens (delete_tokens_of user db)
               ++ [TokenRow (next_pk db) (user_pk user) random now])
          = [TokenRow (next_pk db) (user_pk user) random now]) as Hfound.
  { rewrite list.filter_app, (filter_token_absent random _ Hfresh).
    by rewrite filter_cons_True by done. }
  split; [done|]. split; [done|]. split.
  { simpl. apply elem_of_app. right. left. }
  unfold validate_token. cbn [tokens]. rewrite Hfound.
  cbn [objects_get]. unfold is_expired. cbn [created_at].
  split; intros Htime.
  - by destruct (Z.ltb_spec hours_48 (now' - now)); [lia|].
  - by destruct (Z.ltb_spec hours_48 (now' - now)); [|lia].
Qed.
End password_reset_facts.

(** * The password reset at work *)
Section password_reset_witnesses.
Import Samples.

(** The token of Alice, presented more than 48 hours after it was made. *)
Lemma validate_token_expired_witness :
  filter (λ r, token r = "token-of-alice") (tokens sample_db) = [alice_token] ∧
  is_expired (hours_48 + 1) alice_token = true ∧
  validate_token (hours_48 + 1) "token-of-alice" sample_db
    = (inl (ValidationError "Token is expired"),
       delete_token alice_token sample_db) ∧
  validate_token 0 "token-of-alice" (delete_token alice_token sample_db)
    = (inl (ValidationError "PasswordResetToken does not exist."),
       delete_token alice_token sample_db).
Proof.
  assert (filter (λ r, token r = "token-of-alice") (tokens sample_db)
          = [alice_token]) as Hfound by reflexivity.
  assert (is_expired (hours_48 + 1) alice_token = true) as Hexp by reflexivity.
  split; [exact Hfound|]. split; [exact Hexp|].
  destruct (validate_token_expired (hours_48 + 1) "token-of-alice" sample_db
              alice_token Hfound Hexp) as (Hraise & Hagain & _).
  split; [exact Hraise|exact (Hagain 0)].
Defined.

(** The token of Bob, presented in time, and the reset that follows. *)
Lemma reset_create_consumes_token_witness :
  validate_token 10 "token-of-bob" sample_db = (inr bob_token, sample_db) ∧
  fst (reset_create sample_make_password "secret" bob_token sample_db)
    = inr (UserRow 2 "bob@example.org" "hash:secret" "Bob" "" "") ∧
  validate_token 20 "token-of-bob"
    (snd (reset_create sample_make_password "secret" bob_token sample_db))
  = (inl (ValidationError "PasswordResetToken does not exist."),
     snd (reset_create sample_make_password "secret" bob_token sample_db)).
Proof.
  assert (validate_token 10 "token-of-bob" sample_db = (inr bob_token, sample_db))
    as Hvalid by reflexivity.
  assert (reset_create sample_make_password "secret" bob_token sample_db
          = (inr (UserRow 2 "bob@example.org" "hash:secret" "Bob" "" ""),
             snd (reset_create sample_make_password "secret" bob_token
                    sample_db))) as Hcreate by reflexivity.
  split; [exact Hvalid|]. split; [by rewrite Hcreate|].
  destruct (reset_create_consumes_token sample_make_password 10 "token-of-bob"
              "secret" sample_db bob_token sample_db _ _ Hvalid Hcreate)
    as (_ & _ & _ & Hagain).
  exact (Hagain 20).
Defined.

(** A request for Alice at the time 100. *)
Lemma request_reset_one_token_witness :
  fst (request_reset mail_sent 100 "fresh-token"
         (Some "alice@example.org") sample_db) = Response 200 ∧
  ∃ address user,
    Some "alice@example.org" = Some address ∧
    filter (λ u, email u = address) (users sample_db) = [user] ∧
    users (snd (request_reset mail_sent 100 "fresh-token"
                  (Some "alice@example.org") sample_db))
      = users sample_db ∧
    filter (λ r, token_user r = user_pk user)
      (tokens (snd (request_reset mail_sent 100 "fresh-token"
                      (Some "alice@example.org") sample_db)))
      = [TokenRow (next_pk sample_db) (user_pk user) "fresh-token" 100] ∧
    filter (λ r, token_user r ≠ user_pk user)
      (tokens (snd (request_reset mail_sent 100 "fresh-token"
                      (Some "alice@example.org") sample_db)))
      = filter (λ r, token_user r ≠ user_pk user) (tokens sample_db).
Proof.
  assert (request_reset mail_sent 100 "fresh-token"
            (Some "alice@example.org") sample_db
          = (Response 200,
             snd (request_reset mail_sent 100 "fresh-token"
                    (Some "alice@example.org") sample_db))) as Hok
    by reflexivity.
  split; [by rewrite Hok|].
  exact (request_reset_one_token mail_sent 100 "fresh-token"
           (Some "alice@example.org") sample_db _ Hok).
Defined.

(** The token of that request, presented 48 hours later to the
    microsecond. *)
Lemma reset_token_lifetime_witness :
  fst (request_reset mail_sent 100 "fresh-token"
         (Some "alice@example.org") sample_db) = Response 200 ∧
  ∃ t,
    token t = "fresh-token" ∧ created_at t = 100 ∧
    validate_token (100 + hours_48) "fresh-token"
      (snd (request_reset mail_sent 100 "fresh-token"
              (Some "alice@example.org") sample_db))
    = (inr t,
       snd (request_reset mail_sent 100 "fresh-token"
              (Some "alice@example.org") sample_db)).
Proof.
  assert (request_reset mail_sent 100 "fresh-token"
            (Some "alice@example.org") sample_db
          = (Response 200,
             snd (request_reset mail_sent 100 "fresh-token"
                    (Some "alice@example.org") sample_db))) as Hok
    by reflexivity.
  split; [by rewrite Hok|].
  destruct (reset_token_lifetime mail_sent 100 "fresh-token"
              (Some "alice@example.org") sample_db _ (100 + hours_48) Hok)
    as (t & Htoken & Hcreated & _ & Hin_time & _).
  exists t. split; [exact Htoken|]. split; [exact Hcreated|].
  apply Hin_time. lia.
Defined.
End password_reset_witnesses.
